(** * HTML to Ricos converter: a shallow embedding of [converter.js]

    The development follows the source file function by function:
    - JavaScript strings are [string]s whose characters are code units
      below 256; [trim], [includes], [toLowerCase], [parseInt] and the three
      regular expressions of [processNodeStyle] are written out;
    - JavaScript numbers are doubles: [parseInt] rounds the digits it reads
      to the nearest one and gives an infinity beyond the largest;
    - the DOM tree handed over by the parser is the inductive [Node];
    - Ricos nodes are the inductive [RNode], optional JSON fields are
      [option]s;
    - [generateId] draws from [Math.random]: the identifier source is an
      explicit state threaded through a small monad [M];
    - the mutually recursive converters recurse on a fuel argument, and
      [htmlToRicos] supplies enough of it for the tree it is given. *)

From Stdlib Require Import List String Ascii Bool Arith ZArith Lia.
Set Warnings "-register-all".
Import ListNotations.
Local Open Scope string_scope.
Local Open Scope nat_scope.

(* ================================================================== *)
(** ** JavaScript strings *)

Module Js.

(** [WhiteSpace] and [LineTerminator] code units below 256: the set used
    by [String.prototype.trim], by [\s] and by [parseInt]. *)
Definition isWhiteSpace (c : ascii) : bool :=
  let n := nat_of_ascii c in
  ((9 <=? n) && (n <=? 13)) || (n =? 32) || (n =? 160).

Definition isDigit (c : ascii) : bool :=
  let n := nat_of_ascii c in (48 <=? n) && (n <=? 57).

Definition isLetter (c : ascii) : bool :=
  let n := nat_of_ascii c in
  ((65 <=? n) && (n <=? 90)) || ((97 <=? n) && (n <=? 122)).

Definition isHexDigit (c : ascii) : bool :=
  let n := nat_of_ascii c in
  isDigit c || ((65 <=? n) && (n <=? 70)) || ((97 <=? n) && (n <=? 102)).

Fixpoint trimStart (s : string) : string :=
  match s with
  | String c s' => if isWhiteSpace c then trimStart s' else s
  | EmptyString => EmptyString
  end.

Fixpoint trimEnd (s : string) : string :=
  match s with
  | String c s' =>
      let t := trimEnd s' in
      if isWhiteSpace c && (t =? "")%string then "" else String c t
  | EmptyString => EmptyString
  end.

Definition trim (s : string) : string := trimEnd (trimStart s).

(** A string is truthy when it is not empty. *)
Definition truthy (s : string) : bool := negb (s =? "")%string.

(** [s.includes(sub)] *)
Fixpoint includes (s sub : string) : bool :=
  prefix sub s ||
  match s with
  | String _ s' => includes s' sub
  | EmptyString => false
  end.

Definition lowerChar (c : ascii) : ascii :=
  let n := nat_of_ascii c in
  if ((65 <=? n) && (n <=? 90))
     || ((192 <=? n) && (n <=? 222) && negb (n =? 215))
  then ascii_of_nat (n + 32) else c.

Fixpoint toLowerCase (s : string) : string :=
  match s with
  | String c s' => String (lowerChar c) (toLowerCase s')
  | EmptyString => EmptyString
  end.

(** [s.charAt(i)]: the empty string out of range. *)
Definition charAt (s : string) (i : nat) : string :=
  match get i s with
  | Some c => String c ""
  | None => ""
  end.

(** Numbers as the converter meets them: the result of [parseInt] or an
    integer literal.  They are IEEE 754 doubles: [Int z] is the double whose
    value is the integer [z], built by [parseInt] only for a [z] that a
    double holds exactly; [NegZero] is [-0]. *)
Inductive Num := NaN | Int (z : Z) | NegZero | Infinity | NegInfinity.

(** [if (n)] *)
Definition numTruthy (n : Num) : bool :=
  match n with
  | NaN | NegZero => false
  | Int z => negb (z =? 0)%Z
  | Infinity | NegInfinity => true
  end.

(** [n >= k] for an integer literal [k] *)
Definition geNum (n : Num) (k : Z) : bool :=
  match n with
  | NaN | NegInfinity => false
  | Int z => (k <=? z)%Z
  | NegZero => (k <=? 0)%Z
  | Infinity => true
  end.

(** [Math.min(n, k)] for an integer literal [k] *)
Definition minNum (n : Num) (k : Z) : Num :=
  match n with
  | NaN => NaN
  | Int z => Int (Z.min z k)
  | NegZero => if (k <? 0)%Z then Int k else NegZero
  | Infinity => Int k
  | NegInfinity => NegInfinity
  end.

(** The double nearest to the integer [m >= 0]: [m] itself below [2^53],
    above it the 53 leading bits of [m] rounded on the bits that follow,
    a tie going to the even significand; [None] when the result is beyond
    the largest double, which is the case from [2^1024 - 2^970] on. *)
Definition nearestDouble (m : Z) : option Z :=
  if (m <? 2 ^ 53)%Z then Some m else
  let shift := (Z.log2 m - 52)%Z in
  let q := Z.shiftr m shift in
  let r := (m - Z.shiftl q shift)%Z in
  let half := Z.shiftl 1 (shift - 1) in
  let q' := if (half <? r)%Z || ((r =? half)%Z && Z.odd q) then (q + 1)%Z else q in
  let v := Z.shiftl q' shift in
  if (v <? 2 ^ 1024)%Z then Some v else None.

(** The longest prefix of [s] whose characters satisfy [p], and the rest. *)
Fixpoint span (p : ascii -> bool) (s : string) : string * string :=
  match s with
  | String c s' =>
      if p c then let (a, b) := span p s' in (String c a, b)
      else (EmptyString, s)
  | EmptyString => (EmptyString, EmptyString)
  end.

Definition stripPrefix (p s : string) : option string :=
  if prefix p s then Some (substring (length p) (length s - length p) s)
  else None.

Definition digitValue (c : ascii) : Z :=
  let n := nat_of_ascii c in
  if isDigit c then Z.of_nat (n - 48)
  else if (97 <=? n) then Z.of_nat (n - 87)
  else Z.of_nat (n - 55).

Fixpoint digitsValue (radix : Z) (acc : Z) (s : string) : Z :=
  match s with
  | String c s' => digitsValue radix (acc * radix + digitValue c)%Z s'
  | EmptyString => acc
  end.

(** [parseInt(s)] without a radix: leading white space, an optional sign,
    an optional [0x] prefix, then the longest run of digits; [NaN] when
    the run is empty, otherwise the double nearest to the value of the
    digits, all of them taken into account, with the sign: [-0] for a
    negative zero, an infinity when the digits are beyond the doubles. *)
Definition parseInt (s : string) : Num :=
  let s1 := trimStart s in
  let (negative, s2) :=
    match s1 with
    | String "-" r => (true, r)
    | String "+" r => (false, r)
    | _ => (false, s1)
    end in
  let (radix, s3) :=
    match s2 with
    | String "0" (String "x" r) => (16%Z, r)
    | String "0" (String "X" r) => (16%Z, r)
    | _ => (10%Z, s2)
    end in
  let (ds, _) := span (if (radix =? 16)%Z then isHexDigit else isDigit) s3 in
  match ds with
  | EmptyString => NaN
  | _ =>
      match nearestDouble (digitsValue radix 0 ds) with
      | None => if negative then NegInfinity else Infinity
      | Some v =>
          if negative then (if (v =? 0)%Z then NegZero else Int (- v)) else Int v
      end
  end.

(** [str.match(re)] for an unanchored expression: the first position at
    which the matcher [m] succeeds. *)
Fixpoint search {A : Type} (m : string -> option A) (s : string) : option A :=
  match m s with
  | Some r => Some r
  | None =>
      match s with
      | String _ s' => search m s'
      | EmptyString => None
      end
  end.

(** [kw\s*:\s*] in front of a value; the remainder starts at the value. *)
Definition property (kw : string) (s : string) : option string :=
  match stripPrefix kw s with
  | None => None
  | Some r1 =>
      match stripPrefix ":" (trimStart r1) with
      | None => None
      | Some r2 => Some (trimStart r2)
      end
  end.

End Js.

Definition firstChars (n : nat) (s : string) : string := substring 0 n s.

(** The capture group of
    [/color\s*:\s*(#[0-9a-fA-F]{3,6}|rgba?\([^)]+\)|[a-zA-Z]+)\s*(!important)?/].
    The tail of the expression matches the empty string, so the first
    alternative that matches decides, each with its greedy choice. *)
Definition colorValue (v : string) : option string :=
  let hexAlt :=
    match v with
    | String "#" h =>
        let (hex, _) := Js.span Js.isHexDigit h in
        if 3 <=? length hex then Some (String "#" (firstChars 6 hex)) else None
    | _ => None
    end in
  let rgbAlt :=
    match Js.stripPrefix "rgb" v with
    | None => None
    | Some r =>
        let (a, r') :=
          match r with
          | String "a" t => ("a", t)
          | _ => ("", r)
          end in
        match r' with
        | String "(" body =>
            let (inner, rest) := Js.span (fun c => negb (Ascii.eqb c ")")) body in
            match inner, rest with
            | String _ _, String ")" _ => Some ("rgb" ++ a ++ "(" ++ inner ++ ")")
            | _, _ => None
            end
        | _ => None
        end
    end in
  let nameAlt :=
    let (letters, _) := Js.span Js.isLetter v in
    match letters with
    | EmptyString => None
    | _ => Some letters
    end in
  match hexAlt with
  | Some c => Some c
  | None => match rgbAlt with Some c => Some c | None => nameAlt end
  end.

Definition colorMatch (style : string) : option string :=
  Js.search (fun s => match Js.property "color" s with
                      | Some v => colorValue v
                      | None => None
                      end) style.

(** The first capture group of
    [/font-size\s*:\s*(\d+)(px|pt|em|rem)?\s*(!important)?/]. *)
Definition fontSizeMatch (style : string) : option string :=
  Js.search (fun s => match Js.property "font-size" s with
                      | Some v =>
                          let (ds, _) := Js.span Js.isDigit v in
                          match ds with EmptyString => None | _ => Some ds end
                      | None => None
                      end) style.

(** The first capture group of
    [/font-weight\s*:\s*(\d+|bold|normal)\s*(!important)?/]. *)
Definition fontWeightMatch (style : string) : option string :=
  Js.search (fun s => match Js.property "font-weight" s with
                      | Some v =>
                          let (ds, _) := Js.span Js.isDigit v in
                          match ds with
                          | String _ _ => Some ds
                          | EmptyString =>
                              if prefix "bold" v then Some "bold"
                              else if prefix "normal" v then Some "normal"
                              else None
                          end
                      | None => None
                      end) style.

(* ================================================================== *)
(** ** The DOM tree *)

(** A DOM node is a text node ([nodeType] 3) or an element ([nodeType] 1). *)
Inductive Node :=
| TextNode (data : string)
| Element (tagName : string) (attributes : list (string * string))
          (childNodes : list Node).

Definition childNodes (n : Node) : list Node :=
  match n with
  | TextNode _ => []
  | Element _ _ cs => cs
  end.

Definition isElement (n : Node) : bool :=
  match n with Element _ _ _ => true | TextNode _ => false end.

(** [element.children]: the element children only. *)
Definition children (n : Node) : list Node := filter isElement (childNodes n).

(** [element.tagName.toLowerCase()] *)
Definition tagOf (n : Node) : string :=
  match n with
  | TextNode _ => ""
  | Element t _ _ => Js.toLowerCase t
  end.

Fixpoint lookupAttr (name : string) (attrs : list (string * string)) : option string :=
  match attrs with
  | [] => None
  | (k, v) :: rest => if (k =? name)%string then Some v else lookupAttr name rest
  end.

(** [element.getAttribute(name)]: [None] is JavaScript's [null]. *)
Definition getAttribute (n : Node) (name : string) : option string :=
  match n with
  | TextNode _ => None
  | Element _ attrs _ => lookupAttr name attrs
  end.

Definition hasAttribute (n : Node) (name : string) : bool :=
  match getAttribute n name with Some _ => true | None => false end.

(** [node.textContent]: the text of all descendants in document order. *)
Fixpoint textContent (n : Node) : string :=
  match n with
  | TextNode data => data
  | Element _ _ cs => String.concat "" (map textContent cs)
  end.

(** Descendants in document order, each with its [parentElement]. *)
Fixpoint descendants (n : Node) : list (Node * Node) :=
  match n with
  | TextNode _ => []
  | Element _ _ cs =>
      flat_map (fun c => (n, c) :: descendants c) cs
  end.

(** [element.querySelectorAll(sel)] for a selector that is a list of tag
    names: the matching descendant elements in document order, paired with
    their parent element. *)
Definition querySelectorAll (n : Node) (tags : list string) : list (Node * Node) :=
  filter (fun pc => isElement (snd pc) && existsb (String.eqb (tagOf (snd pc))) tags)
         (descendants n).

(** Nesting depth of a tree, the measure behind the fuel of the converters. *)
Fixpoint depth (n : Node) : nat :=
  match n with
  | TextNode _ => 0
  | Element _ _ cs => S (fold_right (fun c m => Nat.max (depth c) m) 0 cs)
  end.

(* ================================================================== *)
(** ** Style and class descriptors *)

Inductive TextAlignment := CENTER | RIGHT | JUSTIFY | LEFT | AUTO.

(** The object built by [processNodeStyle]; an absent key is [None] (or
    [false] for the two flags, which are only ever set to [true]). *)
Record StyleData := {
  margin : bool;
  padding : bool;
  styleTextAlignment : option TextAlignment;
  color : option string;
  fontSize : option Js.Num;
  fontWeight : option Js.Num
}.

Definition processNodeStyle (element : Node) : option StyleData :=
  match getAttribute element "style" with
  | None => None
  | Some style =>
      if negb (Js.truthy style) then None else
      Some {|
        margin := Js.includes style "margin";
        padding := Js.includes style "padding";
        styleTextAlignment :=
          if Js.includes style "text-align" then
            if Js.includes style "text-align: center" then Some CENTER
            else if Js.includes style "text-align: right" then Some RIGHT
            else if Js.includes style "text-align: justify" then Some JUSTIFY
            else Some LEFT
          else None;
        color := colorMatch style;
        fontSize := option_map Js.parseInt (fontSizeMatch style);
        fontWeight :=
          match fontWeightMatch style with
          | None => None
          | Some w =>
              if (w =? "bold")%string then Some (Js.Int 700)
              else if (w =? "normal")%string then Some (Js.Int 400)
              else Some (Js.parseInt w)
          end
      |}
  end.

Record ClassData := {
  highlight : bool;
  classTextAlignment : option TextAlignment;
  isSection : bool
}.

Definition processNodeClass (element : Node) : option ClassData :=
  match getAttribute element "class" with
  | None => None
  | Some className =>
      if negb (Js.truthy className) then None else
      Some {|
        highlight := Js.includes className "highlight" || Js.includes className "important";
        classTextAlignment :=
          (* three assignments in a row: the last one that fires wins *)
          let a1 := if Js.includes className "center" || Js.includes className "text-center"
                    then Some CENTER else None in
          let a2 := if Js.includes className "right" || Js.includes className "text-right"
                    then Some RIGHT else a1 in
          if Js.includes className "justify" || Js.includes className "text-justify"
          then Some JUSTIFY else a2;
        isSection := Js.includes className "section" || Js.includes className "container"
      |}
  end.

(* ================================================================== *)
(** ** Ricos nodes *)

Local Open Scope list_scope.

Inductive Target := BLANK | SELF.

Inductive Decoration :=
| BOLD (fontWeightValue : Js.Num)
| ITALIC
| UNDERLINE
| COLOR (colorData : string)
| LINK (url : string) (target : Target) (noreferrer : bool).

Record TextData := {
  text : string;
  decorations : option (list Decoration)
}.

Record ParagraphData := {
  textAlignment : TextAlignment;
  indentation : option Z
}.

Record HeadingData := {
  level : Js.Num;
  headingAlignment : TextAlignment
}.

Record TableData := {
  colsWidthRatio : list Z;
  rowsHeight : list Z;
  colsMinWidth : list Z;
  borderColor : string;
  borderWidth : Z;
  borderStyle : string
}.

Record ImageData := {
  containerWidthSize : string;
  containerAlignment : TextAlignment;
  textWrap : bool;
  srcUrl : string;
  width : Js.Num;
  height : Js.Num
}.

(** One constructor per value of the [type] field; [id] comes first, the
    child sequence [nodes] where the node has one. *)
Inductive RNode :=
| PARAGRAPH (id : string) (nodes : list RNode) (paragraphData : option ParagraphData)
| HEADING (id : string) (nodes : list RNode) (headingData : HeadingData)
| BULLETED_LIST (id : string) (nodes : list RNode)
| ORDERED_LIST (id : string) (nodes : list RNode)
| LIST_ITEM (id : string) (nodes : list RNode)
| BLOCKQUOTE (id : string) (nodes : list RNode)
| CODE_BLOCK (id : string) (nodes : list RNode)
| TABLE (id : string) (nodes : list RNode) (tableData : TableData)
| TABLE_ROW (id : string) (nodes : list RNode)
| TABLE_CELL (id : string) (nodes : list RNode) (cellData : option Js.Num)
| IMAGE (id : string) (imageData : ImageData)
| DIVIDER (id : string)
| TEXT (id : string) (textData : TextData).

Record Document := { docNodes : list RNode }.

(** [node.type] *)
Definition typeOf (n : RNode) : string :=
  match n with
  | PARAGRAPH _ _ _ => "PARAGRAPH"
  | HEADING _ _ _ => "HEADING"
  | BULLETED_LIST _ _ => "BULLETED_LIST"
  | ORDERED_LIST _ _ => "ORDERED_LIST"
  | LIST_ITEM _ _ => "LIST_ITEM"
  | BLOCKQUOTE _ _ => "BLOCKQUOTE"
  | CODE_BLOCK _ _ => "CODE_BLOCK"
  | TABLE _ _ _ => "TABLE"
  | TABLE_ROW _ _ => "TABLE_ROW"
  | TABLE_CELL _ _ _ => "TABLE_CELL"
  | IMAGE _ _ => "IMAGE"
  | DIVIDER _ => "DIVIDER"
  | TEXT _ _ => "TEXT"
  end.

Definition plainText (s : string) : RNode :=
  TEXT "" {| text := s; decorations := None |}.

Definition decoratedText (s : string) (ds : list Decoration) : RNode :=
  TEXT "" {| text := s; decorations := Some ds |}.

(** The test the normalizer repeats four times: a [PARAGRAPH] whose only
    child is a [TEXT] with text [" "]. *)
Definition isSpacing (n : RNode) : bool :=
  match n with
  | PARAGRAPH _ [TEXT _ td] _ => (text td =? " ")%string
  | _ => false
  end.

Definition isHeading (n : RNode) : bool :=
  match n with HEADING _ _ _ => true | _ => false end.

(* ================================================================== *)
(** ** Identifier source and the conversion monad *)

(** The values [Math.random().toString(36).substring(2, 8)] will yield, in
    the order of the calls. *)
Definition IdSource := nat -> string.

(** A computation draws identifiers from the source; [None] is reserved
    for a recursion that ran out of fuel. *)
Definition M (A : Type) : Type := IdSource -> option (A * IdSource).

Definition ret {A : Type} (a : A) : M A := fun s => Some (a, s).

Definition bind {A B : Type} (m : M A) (k : A -> M B) : M B :=
  fun s => match m s with
           | Some (a, s') => k a s'
           | None => None
           end.

Definition outOfFuel {A : Type} : M A := fun _ => None.

Notation "x <- m ;; k" := (bind m (fun x => k))
  (at level 61, m at next level, right associativity).

Definition generateId : M string :=
  fun s => Some (s 0, fun n => s (S n)).

(** A [for] loop over [l] that updates the loop state [st]. *)
Fixpoint forEach {A S : Type} (l : list A) (st : S) (body : S -> A -> M S) : M S :=
  match l with
  | [] => ret st
  | x :: rest => st' <- body st x ;; forEach rest st' body
  end.

Definition createSpacingParagraph : M RNode :=
  id <- generateId ;;
  ret (PARAGRAPH id [plainText " "] None).

(* ================================================================== *)
(** ** The converters *)

Definition oneOf (tag : string) (tags : list string) : bool :=
  existsb (String.eqb tag) tags.

Definition newline : string := String (ascii_of_nat 10) "".

(** [o || d] for an attribute value: [null] and the empty string give [d]. *)
Definition orElse (o : option string) (d : string) : string :=
  match o with
  | Some s => if Js.truthy s then s else d
  | None => d
  end.

(** [style?.textAlignment || 'AUTO'] *)
Definition alignmentOrAuto (style : option StyleData) : TextAlignment :=
  match style with
  | Some st => match styleTextAlignment st with Some a => a | None => AUTO end
  | None => AUTO
  end.

Definition hasColor (st : StyleData) : bool :=
  match color st with Some c => Js.truthy c | None => false end.

Definition hasFontWeight (st : StyleData) : bool :=
  match fontWeight st with Some w => Js.numTruthy w | None => false end.

(** The decorations a text child takes from the style of its parent. *)
Definition textDecorations (parentStyle : option StyleData) : option (list Decoration) :=
  match parentStyle with
  | None => None
  | Some st =>
      if hasColor st || hasFontWeight st then
        Some ((match color st with
               | Some c => if Js.truthy c then [COLOR c] else []
               | None => []
               end) ++
              (match fontWeight st with
               | Some w => if Js.numTruthy w && Js.geNum w 600 then [BOLD w] else []
               | None => []
               end))
      else None
  end.

(** [element.hasAttribute(name) ? parseInt(element.getAttribute(name) || '0') : dflt] *)
Definition imageDimension (element : Node) (name : string) (dflt : Z) : Js.Num :=
  if hasAttribute element name
  then Js.parseInt (orElse (getAttribute element name) "0")
  else Js.Int dflt.

(** The [IMAGE] node, built by the same statements in the inline processor
    and in the tree walker. *)
Definition imageNode (element : Node) : M RNode :=
  let imgWidth := imageDimension element "width" 500 in
  let imgHeight := imageDimension element "height" 300 in
  id <- generateId ;;
  ret (IMAGE id {| containerWidthSize := "CONTENT";
                   containerAlignment := CENTER;
                   textWrap := true;
                   srcUrl := orElse (getAttribute element "src") "";
                   width := imgWidth;
                   height := imgHeight |}).

Definition linkDecorations (a : Node) : list Decoration :=
  [LINK (orElse (getAttribute a "href") "")
        (match getAttribute a "target" with
         | Some t => if (t =? "_blank")%string then BLANK else SELF
         | None => SELF
         end)
        true;
   UNDERLINE].

Definition headingTags : list string := ["h1"; "h2"; "h3"; "h4"; "h5"; "h6"].

(** The tags the inline processor hands over to [handleBlockElement]. *)
Definition inlineBlockTags : list string :=
  ["p"; "h1"; "h2"; "h3"; "h4"; "h5"; "h6"; "div"; "blockquote"; "pre"; "ul"; "ol"; "li"].

(** The tags that make a [div] a container of blocks. *)
Definition divBlockTags : list string :=
  ["p"; "h1"; "h2"; "h3"; "h4"; "h5"; "h6"; "div"; "blockquote"; "pre"; "ul"; "ol"; "table"].

(** The class test of the second loop of [convertNodeToRicos]. *)
Definition isSectionDiv (element : Node) : bool :=
  (tagOf element =? "div")%string &&
  match getAttribute element "class" with
  | Some c => Js.truthy c && (Js.includes c "section" || Js.includes c "container")
  | None => false
  end.

Definition headingNode (tagName : string) (element : Node) (id : string)
           (nodes : list RNode) : RNode :=
  let headingLevel := Js.parseInt (Js.charAt tagName 1) in
  let headingStyle := processNodeStyle element in
  HEADING id nodes {| level := Js.minNum headingLevel 6;
                      headingAlignment := alignmentOrAuto headingStyle |}.

Definition tableData (maxCols : nat) (rowsHeight : list Z) : TableData :=
  {| colsWidthRatio := repeat 150%Z maxCols;
     rowsHeight := rowsHeight;
     colsMinWidth := repeat 140%Z maxCols;
     borderColor := "#CFCFCF";
     borderWidth := 1;
     borderStyle := "solid" |}.

(** The four mutually recursive functions of the source.  Every call
    passes the remaining fuel on; [processTextAndInlineElements] and
    [convertNodeToRicos] call themselves and [handleBlockElement] on
    children, [handleBlockElement] calls both on its own element.  The local
    variable [previousWasText] of [convertNodeToRicos] is written and never
    read, it has no counterpart here. *)
Fixpoint processTextAndInlineElements (fuel : nat) (element : Node) {struct fuel}
  : M (list RNode) :=
  match fuel with
  | O => outOfFuel
  | S fuel' =>
      let parentStyle := processNodeStyle element in
      forEach (childNodes element) [] (fun tempNodes child =>
        match child with
        | TextNode txt =>
            if Js.truthy txt && Js.truthy (Js.trim txt) then
              ret (tempNodes ++
                   [TEXT "" {| text := txt; decorations := textDecorations parentStyle |}])
            else ret tempNodes
        | Element _ _ _ =>
            let tagName := tagOf child in
            if oneOf tagName ["strong"; "b"] then
              ret (tempNodes ++ [decoratedText (textContent child) [BOLD (Js.Int 700)]])
            else if oneOf tagName ["em"; "i"] then
              ret (tempNodes ++ [decoratedText (textContent child) [ITALIC]])
            else if (tagName =? "u")%string then
              ret (tempNodes ++ [decoratedText (textContent child) [UNDERLINE]])
            else if (tagName =? "a")%string then
              ret (tempNodes ++ [decoratedText (textContent child) (linkDecorations child)])
            else if (tagName =? "span")%string then
              inner <- processTextAndInlineElements fuel' child ;;
              ret (tempNodes ++ inner)
            else if (tagName =? "br")%string then
              ret (tempNodes ++ [plainText newline])
            else if (tagName =? "img")%string then
              image <- imageNode child ;;
              ret (tempNodes ++ [image])
            else if oneOf tagName inlineBlockTags then
              blocks <- handleBlockElement fuel' child ;;
              ret (tempNodes ++ blocks)
            else
              inner <- processTextAndInlineElements fuel' child ;;
              ret (tempNodes ++ inner)
        end)
  end

with handleBlockElement (fuel : nat) (element : Node) {struct fuel} : M (list RNode) :=
  match fuel with
  | O => outOfFuel
  | S fuel' =>
      let tagName := tagOf element in
      if (tagName =? "p")%string then
        let pStyle := processNodeStyle element in
        id <- generateId ;;
        nodes <- processTextAndInlineElements fuel' element ;;
        ret [PARAGRAPH id nodes
               (option_map (fun st =>
                  {| textAlignment := alignmentOrAuto pStyle;
                     indentation := if margin st || padding st then Some 1%Z else None |})
                  pStyle)]
      else if oneOf tagName headingTags then
        before <- (if (tagName =? "h2")%string || (tagName =? "h3")%string
                   then spacing <- createSpacingParagraph ;; ret [spacing]
                   else ret []) ;;
        id <- generateId ;;
        nodes <- processTextAndInlineElements fuel' element ;;
        spacing <- createSpacingParagraph ;;
        let blockNodes := before ++ [headingNode tagName element id nodes] ++ [spacing] in
        if (tagName =? "h2")%string
        then extra <- createSpacingParagraph ;; ret (blockNodes ++ [extra])
        else ret blockNodes
      else if (tagName =? "ul")%string then
        id <- generateId ;;
        nodes <- convertNodeToRicos fuel' element ;;
        spacing <- createSpacingParagraph ;;
        ret [BULLETED_LIST id nodes; spacing]
      else if (tagName =? "ol")%string then
        id <- generateId ;;
        nodes <- convertNodeToRicos fuel' element ;;
        spacing <- createSpacingParagraph ;;
        ret [ORDERED_LIST id nodes; spacing]
      else if (tagName =? "li")%string then
        id <- generateId ;;
        nodes <- processTextAndInlineElements fuel' element ;;
        ret [LIST_ITEM id nodes]
      else if (tagName =? "blockquote")%string then
        id <- generateId ;;
        nodes <- processTextAndInlineElements fuel' element ;;
        spacing <- createSpacingParagraph ;;
        ret [BLOCKQUOTE id nodes; spacing]
      else if oneOf tagName ["pre"; "code"] then
        id <- generateId ;;
        spacing <- createSpacingParagraph ;;
        ret [CODE_BLOCK id [plainText (textContent element)]; spacing]
      else if (tagName =? "div")%string then
        let divClass := processNodeClass element in
        let hasBlockChildren :=
          existsb (fun child => oneOf (tagOf child) divBlockTags) (children element) in
        let section := match divClass with Some c => isSection c | None => false end in
        before <- (if section
                   then s1 <- createSpacingParagraph ;;
                        s2 <- createSpacingParagraph ;; ret [s1; s2]
                   else ret []) ;;
        blockNodes <-
          (if hasBlockChildren then
             forEach (childNodes element) before (fun blockNodes childNode =>
               match childNode with
               | Element _ _ _ =>
                   converted <- convertNodeToRicos fuel' childNode ;;
                   ret (blockNodes ++ converted)
               | TextNode data =>
                   let txt := Js.trim data in
                   if Js.truthy txt then
                     id <- generateId ;;
                     ret (blockNodes ++ [PARAGRAPH id [plainText txt] None])
                   else ret blockNodes
               end)
           else
             id <- generateId ;;
             nodes <- processTextAndInlineElements fuel' element ;;
             ret (before ++
                  [PARAGRAPH id nodes
                     (match divClass with
                      | Some c =>
                          option_map (fun a => {| textAlignment := a; indentation := None |})
                                     (classTextAlignment c)
                      | None => None
                      end)])) ;;
        if section
        then s1 <- createSpacingParagraph ;;
             s2 <- createSpacingParagraph ;; ret (blockNodes ++ [s1; s2])
        else ret blockNodes
      else
        id <- generateId ;;
        nodes <- processTextAndInlineElements fuel' element ;;
        ret [PARAGRAPH id nodes None]
  end

with convertNodeToRicos (fuel : nat) (node : Node) {struct fuel} : M (list RNode) :=
  match fuel with
  | O => outOfFuel
  | S fuel' =>
      walked <-
        forEach (childNodes node) ([], false) (fun st child =>
          let nodes := fst st in
          let previousWasHeading := snd st in
          match child with
          | TextNode txt =>
              if Js.truthy txt && Js.truthy (Js.trim txt)
              then ret (nodes ++ [plainText txt], false)
              else ret st
          | Element _ _ _ =>
              let tagName := tagOf child in
              if (tagName =? "p")%string then
                blocks <- handleBlockElement fuel' child ;;
                ret (nodes ++ blocks, false)
              else if oneOf tagName headingTags then
                nodes1 <- (if negb (List.length nodes =? 0) && negb previousWasHeading
                           then spacing <- createSpacingParagraph ;; ret (nodes ++ [spacing])
                           else ret nodes) ;;
                id <- generateId ;;
                inner <- processTextAndInlineElements fuel' child ;;
                spacing <- createSpacingParagraph ;;
                ret (nodes1 ++ [headingNode tagName child id inner] ++ [spacing], true)
              else if (tagName =? "div")%string then
                divContent <- convertNodeToRicos fuel' child ;;
                ret (nodes ++ divContent, previousWasHeading)
              else if (tagName =? "table")%string then
                tableNode <- handleTable fuel' child ;;
                spacing <- createSpacingParagraph ;;
                ret (nodes ++ [tableNode; spacing], previousWasHeading)
              else if oneOf tagName ["thead"; "tbody"; "tfoot"; "tr"] then
                inner <- convertNodeToRicos fuel' child ;;
                ret (nodes ++ inner, previousWasHeading)
              else if oneOf tagName ["th"; "td"; "strong"; "em"; "a"; "b"; "i"; "u"; "span"] then
                inner <- processTextAndInlineElements fuel' child ;;
                ret (nodes ++ inner, previousWasHeading)
              else if (tagName =? "img")%string then
                image <- imageNode child ;;
                ret (nodes ++ [image], previousWasHeading)
              else if (tagName =? "ul")%string then
                id <- generateId ;;
                items <- convertNodeToRicos fuel' child ;;
                ret (nodes ++ [BULLETED_LIST id items], previousWasHeading)
              else if (tagName =? "ol")%string then
                id <- generateId ;;
                items <- convertNodeToRicos fuel' child ;;
                ret (nodes ++ [ORDERED_LIST id items], previousWasHeading)
              else if (tagName =? "li")%string then
                id <- generateId ;;
                inner <- processTextAndInlineElements fuel' child ;;
                ret (nodes ++ [LIST_ITEM id inner], previousWasHeading)
              else if (tagName =? "blockquote")%string then
                id <- generateId ;;
                inner <- processTextAndInlineElements fuel' child ;;
                ret (nodes ++ [BLOCKQUOTE id inner], previousWasHeading)
              else if oneOf tagName ["pre"; "code"] then
                id <- generateId ;;
                ret (nodes ++ [CODE_BLOCK id [plainText (textContent child)]],
                     previousWasHeading)
              else if (tagName =? "hr")%string then
                id <- generateId ;;
                ret (nodes ++ [DIVIDER id], previousWasHeading)
              else if (tagName =? "br")%string then
                id <- generateId ;;
                ret (nodes ++ [PARAGRAPH id [plainText " "] None], previousWasHeading)
              else
                blocks <- handleBlockElement fuel' child ;;
                ret (nodes ++ blocks, previousWasHeading)
          end) ;;
      (* second loop: double spacing for the section divs among the children *)
      forEach (childNodes node) (fst walked) (fun nodes child =>
        match child with
        | Element _ _ _ =>
            if isSectionDiv child then
              s1 <- createSpacingParagraph ;;
              s2 <- createSpacingParagraph ;;
              ret (nodes ++ [s1; s2])
            else ret nodes
        | TextNode _ => ret nodes
        end)
  end

with handleTable (fuel : nat) (element : Node) {struct fuel} : M RNode :=
  match fuel with
  | O => outOfFuel
  | S fuel' =>
      let rows := querySelectorAll element ["tr"] in
      match rows with
      | [] => createSpacingParagraph
      | _ :: _ =>
          st <-
            forEach rows ([], [], 0) (fun st parentAndRow =>
              let tableRows := fst (fst st) in
              let rowsHeight := snd (fst st) in
              let maxCols := snd st in
              let row := snd parentAndRow in
              let isHeaderRow := (tagOf (fst parentAndRow) =? "thead")%string in
              let cells := querySelectorAll row ["th"; "td"] in
              match cells with
              | [] => ret st
              | _ :: _ =>
                  let maxCols := Nat.max maxCols (List.length cells) in
                  let rowsHeight := rowsHeight ++ [50%Z] in
                  rowCells <-
                    forEach cells [] (fun rowCells parentAndCell =>
                      let cell := snd parentAndCell in
                      let isHeader := (tagOf cell =? "th")%string || isHeaderRow in
                      cellId <- generateId ;;
                      cellContentNodes <- processTextAndInlineElements fuel' cell ;;
                      paragraphId <- generateId ;;
                      let content :=
                        match cellContentNodes with
                        | _ :: _ => cellContentNodes
                        | [] =>
                            [TEXT "" {| text := textContent cell;
                                        decorations :=
                                          if isHeader then Some [BOLD (Js.Int 700)]
                                          else None |}]
                        end in
                      let cellParagraph :=
                        PARAGRAPH paragraphId content
                                  (Some {| textAlignment := CENTER; indentation := None |}) in
                      let cellData :=
                        match getAttribute cell "colspan" with
                        | Some colspan =>
                            if Js.truthy colspan then Some (Js.parseInt colspan) else None
                        | None => None
                        end in
                      ret (rowCells ++ [TABLE_CELL cellId [cellParagraph] cellData])) ;;
                  rowId <- generateId ;;
                  ret (tableRows ++ [TABLE_ROW rowId rowCells], rowsHeight, maxCols)
              end) ;;
          id <- generateId ;;
          ret (TABLE id (fst (fst st)) (tableData (snd st) (snd (fst st))))
      end
  end.

(* ================================================================== *)
(** ** The spacing normalizer and the entry point *)

Definition previousIs (previousType : option string) (t : string) : bool :=
  match previousType with
  | Some p => (p =? t)%string
  | None => false
  end.

(** The first loop of [htmlToRicos] from index [i] on: [nodes] are
    [nodes[i..]], so that [nodes[i + 1]] is the head of the rest. *)
Fixpoint enhance (i : nat) (nodes : list RNode) (previousType : option string)
         (enhancedNodes : list RNode) {struct nodes} : M (list RNode) :=
  match nodes with
  | [] => ret enhancedNodes
  | node :: rest =>
      if isSpacing node && previousIs previousType "SPACING" then
        enhance (S i) rest previousType enhancedNodes
      else if (typeOf node =? "HEADING")%string then
        enhanced1 <- (if (0 <? i) && negb (previousIs previousType "SPACING")
                      then spacing <- createSpacingParagraph ;;
                           ret (enhancedNodes ++ [spacing])
                      else ret enhancedNodes) ;;
        let enhanced2 := enhanced1 ++ [node] in
        enhanced3 <- (if match rest with
                         | nextNode :: _ => negb (isSpacing nextNode)
                         | [] => true
                         end
                      then spacing <- createSpacingParagraph ;;
                           ret (enhanced2 ++ [spacing])
                      else ret enhanced2) ;;
        enhance (S i) rest (Some "HEADING") enhanced3
      else if isSpacing node then
        enhance (S i) rest (Some "SPACING") (enhancedNodes ++ [node])
      else
        enhance (S i) rest (Some (typeOf node)) (enhancedNodes ++ [node])
  end.

(** The number of spacing paragraphs a [while] loop steps over. *)
Fixpoint spacingRun (l : list RNode) : nat :=
  match l with
  | n :: rest => if isSpacing n then S (spacingRun rest) else 0
  | [] => 0
  end.

Definition startIndex (enhancedNodes : list RNode) : nat :=
  spacingRun enhancedNodes.

(** [endIndex] reaches -1 when every node is a spacing paragraph. *)
Definition endIndex (enhancedNodes : list RNode) : Z :=
  (Z.of_nat (List.length enhancedNodes) - 1 - Z.of_nat (spacingRun (rev enhancedNodes)))%Z.

(** The copy loop [for (i = startIndex; i <= endIndex; i++)]. *)
Definition cleanedNodes (enhancedNodes : list RNode) : list RNode :=
  let s := startIndex enhancedNodes in
  let e := endIndex enhancedNodes in
  firstn (Z.to_nat (e - Z.of_nat s + 1)) (skipn s enhancedNodes).

(** Fuel that [convertNodeToRicos] cannot exhaust on [body]. *)
Definition fuelFor (body : Node) : nat := 2 * depth body + 1.

(** [htmlToRicos] from the parsed document on: [body] is [doc.body]. *)
Definition htmlToRicos (body : Node) : M Document :=
  nodes <- convertNodeToRicos (fuelFor body) body ;;
  enhancedNodes <- enhance 0 nodes None [] ;;
  ret {| docNodes := cleanedNodes enhancedNodes |}.

(** The document alone, the identifier source left behind. *)
Definition run {A : Type} (m : M A) (ids : IdSource) : option A :=
  option_map fst (m ids).

(* ================================================================== *)
(** * Specification vocabulary *)

(** ** Judgements on computations *)

(** Partial correctness: every result the computation returns satisfies [P]. *)
Definition post {A : Type} (P : A -> Prop) (m : M A) : Prop :=
  forall s a s', m s = Some (a, s') -> P a.

(** The computation returns a result from every identifier source. *)
Definition total {A : Type} (m : M A) : Prop :=
  forall s, exists a s', m s = Some (a, s').

(** Two computations, run from unrelated identifier sources, return
    related results. *)
Definition rel {A : Type} (R : A -> A -> Prop) (m1 m2 : M A) : Prop :=
  forall s1 s2 a1 a2 s1' s2',
    m1 s1 = Some (a1, s1') -> m2 s2 = Some (a2, s2') -> R a1 a2.

(** Whatever [m1] returns, [m2] returns too. *)
Definition refines {A : Type} (m1 m2 : M A) : Prop :=
  forall s r, m1 s = Some r -> m2 s = Some r.

(** ** Concrete documents *)

Definition body (cs : list Node) : Node := Element "BODY" [] cs.

Definition spacing (id : string) : RNode := PARAGRAPH id [plainText " "] None.

(** [<a href="http://x.com">t</a>] *)
Definition linkElement : Node :=
  Element "A" [("href", "http://x.com")] [TextNode "t"].

(** [<table><tr><th>H</th></tr><tr><td>C</td></tr></table>] as the HTML
    parser builds it, the rows inside an implied [tbody]. *)
Definition headerTable : Node :=
  Element "TABLE" []
    [Element "TBODY" []
       [Element "TR" [] [Element "TH" [] [TextNode "H"]];
        Element "TR" [] [Element "TD" [] [TextNode "C"]]]].

(** [<div class="section"><p>a</p></div><p>b</p>] *)
Definition sectionThenParagraph : list Node :=
  [Element "DIV" [("class", "section")] [Element "P" [] [TextNode "a"]];
   Element "P" [] [TextNode "b"]].

(** The digit [c] written [n] times. *)
Definition digits (c : ascii) (n : nat) : string :=
  string_of_list_ascii (repeat c n).

Definition centered : option ParagraphData :=
  Some {| textAlignment := CENTER; indentation := None |}.

(** ** Vocabulary of the claims *)

Definition blankText (c : Node) : Prop :=
  exists s, c = TextNode s /\ Js.trim s = "".

(** The claim of C2 as the specification words it: one Paragraph whose sole
    child is a Text leaf holding the text. *)
Definition paragraphHolding (txt : string) (n : RNode) : Prop :=
  match n with
  | PARAGRAPH _ [TEXT _ td] _ => text td = txt
  | _ => False
  end.

(** What the code computes for one dimension of an [img]: the default when
    the attribute is absent, otherwise [parseInt] of its value, of ["0"] when
    the value is empty. *)
Definition dimensionFrom (attrs : list (string * string)) (name : string) (dflt : Z)
  : Js.Num :=
  match lookupAttr name attrs with
  | None => Js.Int dflt
  | Some v => Js.parseInt (if (v =? "")%string then "0" else v)
  end.

Definition cellCount (row : RNode) : nat :=
  match row with
  | TABLE_ROW _ cells => List.length cells
  | _ => 0
  end.

(** The maximum cell count over the emitted rows. *)
Definition maxCellCount (rows : list RNode) : nat :=
  fold_left (fun m r => Nat.max m (cellCount r)) rows 0.

Definition hasRowWithCell (table : Node) : bool :=
  existsb (fun parentAndRow =>
             match querySelectorAll (snd parentAndRow) ["th"; "td"] with
             | [] => false
             | _ :: _ => true
             end)
          (querySelectorAll table ["tr"]).

(** The state of the row loop of [handleTable]: the heights and the column
    count follow the rows emitted so far. *)
Definition rowsInvariant (st : list RNode * list Z * nat) : Prop :=
  snd (fst st) = repeat 50%Z (List.length (fst (fst st))) /\
  snd st = maxCellCount (fst (fst st)).

(** A loop whose body only appends keeps what was pushed before. *)
Definition keeps (st st' : list RNode) : Prop := forall n, In n st -> In n st'.

(** ** Spacing paragraphs and headings *)

(** The shape of every sequence the converters return: a heading is never
    last and the node after it is a spacing paragraph. *)
Fixpoint headingsFollowed (l : list RNode) : bool :=
  match l with
  | [] => true
  | n :: rest =>
      (if isHeading n
       then match rest with next :: _ => isSpacing next | [] => false end
       else true)
      && headingsFollowed rest
  end.

Definition followedP (l : list RNode) : Prop := headingsFollowed l = true.
Definition notHeadingP (n : RNode) : Prop := isHeading n = false.

Fixpoint noAdjacentSpacing (l : list RNode) : bool :=
  match l with
  | a :: rest =>
      match rest with
      | b :: _ => negb (isSpacing a && isSpacing b)
      | [] => true
      end && noAdjacentSpacing rest
  | [] => true
  end.

Definition endsWithSpacing (l : list RNode) : bool :=
  match rev l with
  | n :: _ => isSpacing n
  | [] => false
  end.

(** ** Text leaves *)


(** All the [textData] of a node and of the nodes below it. *)
Fixpoint textsOf (n : RNode) : list TextData :=
  match n with
  | TEXT _ td => [td]
  | PARAGRAPH _ ns _ | HEADING _ ns _ | BULLETED_LIST _ ns | ORDERED_LIST _ ns
  | LIST_ITEM _ ns | BLOCKQUOTE _ ns | CODE_BLOCK _ ns | TABLE _ ns _
  | TABLE_ROW _ ns | TABLE_CELL _ ns _ => flat_map textsOf ns
  | IMAGE _ _ | DIVIDER _ => []
  end.

(** The invariant as the specification words it: non-empty after trimming,
    or one of the two markers. *)
Definition wellFormedText (td : TextData) : bool :=
  Js.truthy (Js.trim (text td)) || (text td =? " ")%string || (text td =? newline)%string.






(** The document holds a Text leaf that is blank and is neither marker. *)
Definition holdsBlankText (doc : option Document) : Prop :=
  exists d td,
    doc = Some d /\
    In td (flat_map textsOf (docNodes d)) /\
    wellFormedText td = false.

(** ** Documents up to their identifiers *)

(** The node with every identifier blanked. *)
Fixpoint eraseIds (n : RNode) : RNode :=
  match n with
  | PARAGRAPH _ ns pd => PARAGRAPH "" (map eraseIds ns) pd
  | HEADING _ ns hd => HEADING "" (map eraseIds ns) hd
  | BULLETED_LIST _ ns => BULLETED_LIST "" (map eraseIds ns)
  | ORDERED_LIST _ ns => ORDERED_LIST "" (map eraseIds ns)
  | LIST_ITEM _ ns => LIST_ITEM "" (map eraseIds ns)
  | BLOCKQUOTE _ ns => BLOCKQUOTE "" (map eraseIds ns)
  | CODE_BLOCK _ ns => CODE_BLOCK "" (map eraseIds ns)
  | TABLE _ ns td => TABLE "" (map eraseIds ns) td
  | TABLE_ROW _ ns => TABLE_ROW "" (map eraseIds ns)
  | TABLE_CELL _ ns cd => TABLE_CELL "" (map eraseIds ns) cd
  | IMAGE _ d => IMAGE "" d
  | DIVIDER _ => DIVIDER ""
  | TEXT _ td => TEXT "" td
  end.

Definition sameShape (l1 l2 : list RNode) : Prop :=
  map eraseIds l1 = map eraseIds l2.

Definition sameNode (n1 n2 : RNode) : Prop := eraseIds n1 = eraseIds n2.

(** ** The normalized sequence *)

(** The nodes the normalizer neither adds nor removes. *)
Definition isContent (n : RNode) : bool := negb (isSpacing n).

(** The sequence without its leading spacing paragraphs. *)
Definition dropSpacing (l : list RNode) : list RNode := skipn (spacingRun l) l.

(** Every heading has a spacing paragraph on each side where it has a
    neighbour at all. *)
Fixpoint headingsFramed (l : list RNode) : bool :=
  match l with
  | a :: rest =>
      match rest with
      | b :: _ => implb (isHeading a) (isSpacing b) && implb (isHeading b) (isSpacing a)
      | [] => true
      end && headingsFramed rest
  | [] => true
  end.

Definition endsWithHeading (l : list RNode) : bool :=
  match rev l with
  | n :: _ => isHeading n
  | [] => false
  end.

Definition startsWithSpacing (l : list RNode) : bool :=
  match l with
  | n :: _ => isSpacing n
  | [] => false
  end.

(** The pair made by the last node of [l] and a node pushed behind it. *)
Definition lastFrames (l : list RNode) (n : RNode) : bool :=
  match rev l with
  | a :: _ => implb (isHeading a) (isSpacing n) && implb (isHeading n) (isSpacing a)
  | [] => true
  end.

(** ** Shape of the nodes of a document *)

(** The node itself and every node below it. *)
Fixpoint subnodes (n : RNode) : list RNode :=
  n :: match n with
       | PARAGRAPH _ ns _ | HEADING _ ns _ | BULLETED_LIST _ ns | ORDERED_LIST _ ns
       | LIST_ITEM _ ns | BLOCKQUOTE _ ns | CODE_BLOCK _ ns | TABLE _ ns _
       | TABLE_ROW _ ns | TABLE_CELL _ ns _ => flat_map subnodes ns
       | IMAGE _ _ | DIVIDER _ | TEXT _ _ => []
       end.

Definition isRow (n : RNode) : bool :=
  match n with TABLE_ROW _ _ => true | _ => false end.

Definition isCell (n : RNode) : bool :=
  match n with TABLE_CELL _ _ _ => true | _ => false end.

(** The children of a table cell: one centred paragraph that is not empty. *)
Definition isCellBody (ns : list RNode) : bool :=
  match ns with
  | [PARAGRAPH _ (_ :: _) (Some {| textAlignment := CENTER; indentation := None |})] => true
  | _ => false
  end.

(** [n >= k] spelt out: [n] is [Infinity] or an integer from [k] on; it is
    neither [NaN] nor [-0] nor [-Infinity]. *)
Definition atLeast (k : Z) (n : Js.Num) : Prop :=
  n = Js.Infinity \/ exists z, n = Js.Int z /\ (k <= z)%Z.

Definition levelInRange (l : Js.Num) : bool :=
  match l with
  | Js.Int z => (1 <=? z)%Z && (z <=? 6)%Z
  | _ => false
  end.

(** A decoration list without a link: at most two entries, and a weight of
    at least 600 on every Bold. *)
Definition styleDecorations (ds : list Decoration) : bool :=
  forallb (fun d => match d with
                    | LINK _ _ _ => false
                    | BOLD w => Js.geNum w 600
                    | _ => true
                    end) ds
  && (List.length ds <=? 2).

(** A link comes with [noreferrer] and is followed by Underline alone. *)
Definition decorationsOk (ds : list Decoration) : bool :=
  match ds with
  | [LINK _ _ true; UNDERLINE] => true
  | _ => styleDecorations ds
  end.

(** What each kind of node looks like when the converters build it. *)
Definition wellBuilt (n : RNode) : bool :=
  match n with
  | TEXT id td =>
      (id =? "")%string &&
      match decorations td with
      | Some ds => decorationsOk ds
      | None => true
      end
  | HEADING _ _ hd => levelInRange (level hd)
  | TABLE _ rows _ => forallb isRow rows
  | TABLE_ROW _ cells =>
      match cells with
      | [] => false
      | _ :: _ => forallb isCell cells
      end
  | TABLE_CELL _ ns _ => isCellBody ns
  | _ => true
  end.

Fixpoint allBuilt (n : RNode) : bool :=
  wellBuilt n &&
  match n with
  | PARAGRAPH _ ns _ | HEADING _ ns _ | BULLETED_LIST _ ns | ORDERED_LIST _ ns
  | LIST_ITEM _ ns | BLOCKQUOTE _ ns | CODE_BLOCK _ ns | TABLE _ ns _
  | TABLE_ROW _ ns | TABLE_CELL _ ns _ => forallb allBuilt ns
  | IMAGE _ _ | DIVIDER _ | TEXT _ _ => true
  end.

(** Every node of a document, at any depth. *)
Definition allNodes (doc : Document) : list RNode :=
  flat_map subnodes (docNodes doc).

(** ** Tables against their source *)

(** [cell.getAttribute('colspan')] as the cell node records it. *)
Definition colspanOf (cell : Node) : option Js.Num :=
  match getAttribute cell "colspan" with
  | Some colspan => if Js.truthy colspan then Some (Js.parseInt colspan) else None
  | None => None
  end.

(** For every [tr] below the table that has cells, in document order, the
    colspans of its [th] and [td] descendants, in document order. *)
Definition sourceColspans (table : Node) : list (list (option Js.Num)) :=
  flat_map (fun parentAndRow =>
              match querySelectorAll (snd parentAndRow) ["th"; "td"] with
              | [] => []
              | cells => [map (fun parentAndCell => colspanOf (snd parentAndCell)) cells]
              end)
           (querySelectorAll table ["tr"]).

Definition cellDataOf (cell : RNode) : option Js.Num :=
  match cell with
  | TABLE_CELL _ _ cd => cd
  | _ => None
  end.

Definition rowColspans (row : RNode) : list (option Js.Num) :=
  match row with
  | TABLE_ROW _ cells => map cellDataOf cells
  | _ => []
  end.

(** [<table><tr></tr><tr><td colspan="2">a</td><td>b</td></tr></table>] *)
Definition spanTable : Node :=
  Element "TABLE" []
    [Element "TBODY" []
       [Element "TR" [] [];
        Element "TR" []
          [Element "TD" [("colspan", "2")] [TextNode "a"];
           Element "TD" [] [TextNode "b"]]]].

(** The Text leaf the inline processor makes of a text child, if any. *)
Definition textLeaves (parent : Node) (txt : string) : list RNode :=
  if Js.truthy txt && Js.truthy (Js.trim txt)
  then [TEXT "" {| text := txt;
                   decorations := textDecorations (processNodeStyle parent) |}]
  else [].

(** ** The summary of the test script *)

(** The object [nodeTypes] of the script that runs the converter: its
    properties in insertion order. *)
Fixpoint getProperty (o : list (string * nat)) (key : string) : option nat :=
  match o with
  | [] => None
  | (k, v) :: rest => if (k =? key)%string then Some v else getProperty rest key
  end.

Fixpoint setProperty (o : list (string * nat)) (key : string) (value : nat)
  : list (string * nat) :=
  match o with
  | [] => [(key, value)]
  | (k, v) :: rest =>
      if (k =? key)%string then (k, value) :: rest
      else (k, v) :: setProperty rest key value
  end.

(** [o[key] || 0] *)
Definition propertyOrZero (o : list (string * nat)) (key : string) : nat :=
  match getProperty o key with
  | Some v => v
  | None => 0
  end.

(** [nodes.forEach(node => { nodeTypes[node.type] = (nodeTypes[node.type] || 0) + 1 })] *)
Definition countNodeTypes (nodes : list RNode) (nodeTypes : list (string * nat))
  : list (string * nat) :=
  fold_left (fun o node => setProperty o (typeOf node) (propertyOrZero o (typeOf node) + 1))
            nodes nodeTypes.

Definition nodeTypesSummary (nodes : list RNode) : list (string * nat) :=
  countNodeTypes nodes [].

Definition sumCounts (o : list (string * nat)) : nat :=
  fold_right (fun kv total => snd kv + total) 0 o.

(** The number of nodes of type [t]. *)
Definition occurrences (nodes : list RNode) (t : string) : nat :=
  List.length (filter (fun n => (typeOf n =? t)%string) nodes).

(** ** Numbers and colours read from a style *)

Fixpoint allChars (p : ascii -> bool) (s : string) : bool :=
  match s with
  | String c s' => p c && allChars p s'
  | EmptyString => true
  end.

(** [<p style="color: red; font-size: 12px; font-weight: 600">] *)
Definition styledParagraph : Node :=
  Element "P" [("style", "color: red; font-size: 12px; font-weight: 600")] [].

(** The two loops that [htmlToRicos] runs on the tree walker's output, as
    one pass over a node sequence. *)
Definition normalize (nodes : list RNode) : M (list RNode) :=
  enhancedNodes <- enhance 0 nodes None [] ;;
  ret (cleanedNodes enhancedNodes).

(** The value of [previousType] once the first loop has gone through [pre]
    without skipping a node. *)
Definition previousTypeAfter (pre : list RNode) : option string :=
  match rev pre with
  | [] => None
  | n :: _ => if isSpacing n then Some "SPACING" else Some (typeOf n)
  end.

(** What the normalizer establishes. *)
Definition normalized (l : list RNode) : Prop :=
  noAdjacentSpacing l = true /\ headingsFramed l = true /\
  startsWithSpacing l = false /\ endsWithSpacing l = false.

(** [divClass && divClass.isSection] *)
Definition hasSectionClass (element : Node) : bool :=
  match processNodeClass element with
  | Some c => isSection c
  | None => false
  end.

(** [<div class="section">x</div>] *)
Definition sectionDiv : Node :=
  Element "DIV" [("class", "section")] [TextNode "x"].

(** ** Identifiers of the nodes *)

(** The identifiers of a node and of the nodes below it; a Text node has
    none, its [id] is the empty string. *)
Fixpoint idsOf (n : RNode) : list string :=
  match n with
  | TEXT _ _ => []
  | IMAGE id _ | DIVIDER id => [id]
  | PARAGRAPH id ns _ | HEADING id ns _ | BULLETED_LIST id ns | ORDERED_LIST id ns
  | LIST_ITEM id ns | BLOCKQUOTE id ns | CODE_BLOCK id ns | TABLE id ns _
  | TABLE_ROW id ns | TABLE_CELL id ns _ => id :: flat_map idsOf ns
  end.

Definition idsOfAll (l : list RNode) : list string := flat_map idsOf l.

(** How often [x] occurs in [l]. *)
Definition occ (x : string) (l : list string) : nat := count_occ string_dec l x.

(** The first [k] identifiers of a source. *)
Definition drawn (s : IdSource) (k : nat) : list string := map s (seq 0 k).

(** A computation whose result, seen through [f], holds no identifier
    beyond those of [base] and those it draws, each as often as drawn; the
    source it leaves behind is the source it started from, moved on by the
    number of draws. *)
Definition draws {A : Type} (f : A -> list string) (base : list string) (m : M A) : Prop :=
  forall s a s',
    m s = Some (a, s') ->
    exists k,
      (forall n, s' n = s (k + n)) /\
      forall x, occ x (f a) <= occ x base + occ x (drawn s k).

(** A source that never repeats itself. *)
Fixpoint unaryId (n : nat) : string :=
  match n with
  | O => "i"
  | S k => String "i" (unaryId k)
  end.

(* ================================================================== *)
(** * Proofs *)

(* ================================================================== *)
(** ** The embedding on small inputs *)

Example trim_both_ends : Js.trim "  a b  " = "a b".
Proof. reflexivity. Qed.

Example parseInt_prefix : Js.parseInt "12px" = Js.Int 12.
Proof. reflexivity. Qed.

Example parseInt_hexadecimal : Js.parseInt "  -0x1F" = Js.Int (-31).
Proof. reflexivity. Qed.

Example parseInt_no_digit : Js.parseInt "abc" = Js.NaN.
Proof. reflexivity. Qed.

(** Above [2^53] the digits are rounded to the nearest double, a tie to the
    even one. *)
Example parseInt_rounds_to_double :
  Js.parseInt "9007199254740993" = Js.Int 9007199254740992 /\
  Js.parseInt "9007199254740995" = Js.Int 9007199254740996.
Proof. split; vm_compute; reflexivity. Qed.

Example parseInt_beyond_doubles :
  Js.parseInt (digits "9" 310) = Js.Infinity /\
  Js.parseInt (String "-" (digits "9" 310)) = Js.NegInfinity /\
  Js.parseInt "-0" = Js.NegZero.
Proof. repeat split; vm_compute; reflexivity. Qed.

(** A font weight of 310 digits makes a text child Bold with the weight
    [Infinity]. *)
Example bold_beyond_doubles :
  textDecorations
    (processNodeStyle
       (Element "P" [("style", ("font-weight: " ++ digits "9" 310)%string)] []))
  = Some [BOLD Js.Infinity].
Proof. vm_compute. reflexivity. Qed.

Example colorMatch_first_position :
  colorMatch "colour; border-color : #12;color:Red1" = Some "Red".
Proof. reflexivity. Qed.

Example colorMatch_unclosed_rgb : colorMatch "color:rgb(1" = Some "rgb".
Proof. reflexivity. Qed.

Example processNodeStyle_sample :
  processNodeStyle
    (Element "P"
       [("style", "background-color:#ff00aa12; font-size: 12px; font-weight:600 !important; margin: 0")]
       [])
  = Some {| margin := true;
            padding := false;
            styleTextAlignment := None;
            color := Some "#ff00aa";
            fontSize := Some (Js.Int 12);
            fontWeight := Some (Js.Int 600) |}.
Proof. reflexivity. Qed.

(** [<h2>A</h2><h2>B</h2>]: one spacing paragraph between the headings,
    none at either end. *)
Example two_headings (ids : IdSource) :
  run (htmlToRicos (body [Element "H2" [] [TextNode "A"];
                          Element "H2" [] [TextNode "B"]])) ids
  = Some {| docNodes :=
              [HEADING (ids 0) [plainText "A"]
                       {| level := Js.Int 2; headingAlignment := AUTO |};
               spacing (ids 1);
               HEADING (ids 2) [plainText "B"]
                       {| level := Js.Int 2; headingAlignment := AUTO |}] |}.
Proof. reflexivity. Qed.

(* ================================================================== *)
(** ** Rounding to a double *)

Section Rounding.

Local Open Scope Z_scope.

(** From [2^53] on, what [nearestDouble] returns is a double, a significand
    of 53 bits times the power of two that goes with the size of [m], and
    no further from [m] than half that power. *)
Lemma nearestDouble_nearest m v :
  2 ^ 53 <= m ->
  Js.nearestDouble m = Some v ->
  (exists q, 2 ^ 52 <= q <= 2 ^ 53 /\ v = q * 2 ^ (Z.log2 m - 52)) /\
  2 * Z.abs (v - m) <= 2 ^ (Z.log2 m - 52).
Proof.
  intros Hm. unfold Js.nearestDouble.
  destruct (m <? 2 ^ 53) eqn:E; [apply Z.ltb_lt in E; lia|]. clear E.
  cbv zeta.
  assert (Hlog : 53 <= Z.log2 m) by (apply Z.log2_le_pow2; lia).
  set (s := Z.log2 m - 52) in *.
  assert (Hs : 1 <= s) by (unfold s; lia).
  rewrite !Z.shiftl_mul_pow2, Z.shiftr_div_pow2 by lia.
  rewrite Z.mul_1_l.
  assert (Hp : 2 ^ s = 2 * 2 ^ (s - 1)).
  { replace s with (Z.succ (s - 1)) at 1 by lia. apply Z.pow_succ_r. lia. }
  assert (Hh : 0 < 2 ^ (s - 1)) by (apply Z.pow_pos_nonneg; lia).
  set (h := 2 ^ (s - 1)) in *.
  pose proof (Z.div_mod m (2 ^ s) ltac:(lia)) as Hdm.
  pose proof (Z.mod_pos_bound m (2 ^ s) ltac:(lia)) as Hr.
  set (q := m / 2 ^ s) in *.
  assert (Hq : 2 ^ 52 <= q < 2 ^ 53).
  { destruct (Z.log2_spec m ltac:(lia)) as [Hlo Hhi].
    replace (Z.log2 m) with (52 + s) in Hlo by (unfold s; lia).
    replace (Z.succ (Z.log2 m)) with (53 + s) in Hhi by (unfold s; lia).
    rewrite Z.pow_add_r in Hlo, Hhi by lia.
    unfold q. split.
    - apply Z.div_le_lower_bound; lia.
    - apply Z.div_lt_upper_bound; lia. }
  replace (m - q * 2 ^ s) with (m mod 2 ^ s) by lia.
  set (r := m mod 2 ^ s) in *.
  destruct ((h <? r) || (r =? h) && Z.odd q) eqn:Eup.
  - destruct ((q + 1) * 2 ^ s <? 2 ^ 1024); [|discriminate].
    intros H. inversion H; subst v. split.
    + exists (q + 1). split; [lia | reflexivity].
    + apply orb_true_iff in Eup as [Eup|Eup].
      * apply Z.ltb_lt in Eup. lia.
      * apply andb_true_iff in Eup as [Eup _]. apply Z.eqb_eq in Eup. lia.
  - destruct (q * 2 ^ s <? 2 ^ 1024); [|discriminate].
    intros H. inversion H; subst v. split.
    + exists q. split; [lia | reflexivity].
    + apply orb_false_iff in Eup as [Eup _]. apply Z.ltb_ge in Eup. lia.
Qed.

End Rounding.

(* ================================================================== *)
(** ** Reasoning about computations in [M] *)

Section MonadLogic.

Context {A B : Type}.

Lemma bind_inv (m : M A) (k : A -> M B) s b s' :
  bind m k s = Some (b, s') ->
  exists a s1, m s = Some (a, s1) /\ k a s1 = Some (b, s').
Proof.
  unfold bind. destruct (m s) as [[a s1]|] eqn:E; [|discriminate].
  intros H. exists a, s1. split; [reflexivity | exact H].
Qed.

Lemma post_ret (P : A -> Prop) a : P a -> post P (ret a).
Proof. intros H s a' s' E. inversion E; subst. exact H. Qed.

Lemma post_outOfFuel (P : A -> Prop) : post P outOfFuel.
Proof. intros s a s' E. discriminate E. Qed.

Lemma post_any (m : M A) : post (fun _ => True) m.
Proof. intros s a s' _. exact I. Qed.

Lemma post_weaken (P Q : A -> Prop) m :
  post P m -> (forall a, P a -> Q a) -> post Q m.
Proof. intros H HPQ s a s' E. apply HPQ. exact (H s a s' E). Qed.

Lemma total_ret (a : A) : total (ret a).
Proof. intros s. exists a, s. reflexivity. Qed.

Lemma rel_ret (R : A -> A -> Prop) a1 a2 : R a1 a2 -> rel R (ret a1) (ret a2).
Proof. intros H s1 s2 b1 b2 t1 t2 E1 E2. inversion E1; inversion E2; subst. exact H. Qed.

Lemma rel_outOfFuel (R : A -> A -> Prop) m : rel R outOfFuel m.
Proof. intros s1 s2 b1 b2 t1 t2 E1. discriminate E1. Qed.

End MonadLogic.

Section BindLogic.

Context {A B : Type}.

Lemma post_bind (Q : A -> Prop) (P : B -> Prop) (m : M A) (k : A -> M B) :
  post Q m -> (forall a, Q a -> post P (k a)) -> post P (bind m k).
Proof.
  intros Hm Hk s b s' E.
  destruct (bind_inv m k s b s' E) as (a & s1 & E1 & E2).
  exact (Hk a (Hm s a s1 E1) s1 b s' E2).
Qed.

Lemma post_bind_any (P : B -> Prop) (m : M A) (k : A -> M B) :
  (forall a, post P (k a)) -> post P (bind m k).
Proof. intros Hk. apply (post_bind (fun _ => True)); [apply post_any | auto]. Qed.

Lemma total_bind (m : M A) (k : A -> M B) :
  total m -> (forall a, total (k a)) -> total (bind m k).
Proof.
  intros Hm Hk s. destruct (Hm s) as (a & s1 & E1).
  destruct (Hk a s1) as (b & s2 & E2).
  exists b, s2. unfold bind. rewrite E1. exact E2.
Qed.

Lemma rel_bind (Q : A -> A -> Prop) (R : B -> B -> Prop)
      (m1 m2 : M A) (k1 k2 : A -> M B) :
  rel Q m1 m2 -> (forall a1 a2, Q a1 a2 -> rel R (k1 a1) (k2 a2)) ->
  rel R (bind m1 k1) (bind m2 k2).
Proof.
  intros Hm Hk s1 s2 b1 b2 t1 t2 E1 E2.
  destruct (bind_inv _ _ _ _ _ E1) as (a1 & u1 & F1 & G1).
  destruct (bind_inv _ _ _ _ _ E2) as (a2 & u2 & F2 & G2).
  exact (Hk a1 a2 (Hm _ _ _ _ _ _ F1 F2) _ _ _ _ _ _ G1 G2).
Qed.

End BindLogic.

Section LoopLogic.

Context {A B : Type}.

(** Loops: an invariant of the loop state is kept by [forEach]. *)
Lemma post_forEach (I : B -> Prop) (l : list A) (body : B -> A -> M B) :
  (forall st x, In x l -> I st -> post I (body st x)) ->
  forall st, I st -> post I (forEach l st body).
Proof.
  induction l as [|x l IH]; intros Hbody st Hst; simpl.
  - apply post_ret. exact Hst.
  - apply (post_bind I).
    + apply Hbody; [left; reflexivity | exact Hst].
    + intros st' Hst'. apply IH; [|exact Hst'].
      intros st0 y Hy. apply Hbody. right. exact Hy.
Qed.

Lemma total_forEach (l : list A) (body : B -> A -> M B) :
  (forall st x, In x l -> total (body st x)) ->
  forall st, total (forEach l st body).
Proof.
  induction l as [|x l IH]; intros Hbody st; simpl.
  - apply total_ret.
  - apply total_bind.
    + apply Hbody. left. reflexivity.
    + intros st'. apply IH. intros st0 y Hy. apply Hbody. right. exact Hy.
Qed.

Lemma rel_forEach (R : B -> B -> Prop) (l : list A) (body : B -> A -> M B) :
  (forall st1 st2 x, In x l -> R st1 st2 -> rel R (body st1 x) (body st2 x)) ->
  forall st1 st2, R st1 st2 -> rel R (forEach l st1 body) (forEach l st2 body).
Proof.
  induction l as [|x l IH]; intros Hbody st1 st2 Hst; simpl.
  - apply rel_ret. exact Hst.
  - apply (rel_bind R).
    + apply Hbody; [left; reflexivity | exact Hst].
    + intros a1 a2 Ha. apply IH; [|exact Ha].
      intros t1 t2 y Hy. apply Hbody. right. exact Hy.
Qed.

End LoopLogic.

Lemma total_generateId : total generateId.
Proof. intros s. eexists _, _. reflexivity. Qed.

Lemma total_createSpacingParagraph : total createSpacingParagraph.
Proof.
  unfold createSpacingParagraph.
  apply total_bind; [apply total_generateId | intros; apply total_ret].
Qed.

Lemma total_imageNode element : total (imageNode element).
Proof.
  unfold imageNode.
  apply total_bind; [apply total_generateId | intros; apply total_ret].
Qed.

Lemma post_createSpacingParagraph :
  post (fun n => exists id, n = PARAGRAPH id [plainText " "] None) createSpacingParagraph.
Proof.
  unfold createSpacingParagraph. apply post_bind_any. intros id.
  apply post_ret. exists id. reflexivity.
Qed.

Lemma post_imageNode element :
  post (fun n => exists id d, n = IMAGE id d) (imageNode element).
Proof.
  unfold imageNode. apply post_bind_any. intros id.
  apply post_ret. eexists _, _. reflexivity.
Qed.

(* ================================================================== *)
(** ** Depth of the tree and sufficiency of the fuel *)

Lemma depth_child tag attrs cs c :
  In c cs -> depth c < depth (Element tag attrs cs).
Proof.
  simpl. induction cs as [|x cs IH]; simpl; [intros []|].
  intros [->|H]; [lia|]. specialize (IH H). lia.
Qed.

Lemma depth_childNodes e c : In c (childNodes e) -> depth c < depth e.
Proof. destruct e as [|tag attrs cs]; simpl childNodes; [intros []|]. apply depth_child. Qed.

Lemma depth_descendants e pc : In pc (descendants e) -> depth (snd pc) < depth e.
Proof.
  revert pc.
  assert (H : forall n e, depth e <= n -> forall pc, In pc (descendants e) ->
                                                      depth (snd pc) < depth e).
  { induction n as [|n IH]; intros e0 Hn pc Hin.
    - destruct e0 as [|t a cs]; simpl in *; [contradiction | lia].
    - destruct e0 as [|t a cs]; [simpl in Hin; contradiction|].
      cbn [descendants] in Hin. apply in_flat_map in Hin.
      destruct Hin as (c & Hc & [<-|Hd]).
      + simpl snd. apply depth_child. exact Hc.
      + pose proof (depth_child t a cs c Hc) as Hlt.
        assert (depth (snd pc) < depth c) by (apply IH; [lia | exact Hd]).
        lia. }
  intros pc. apply (H (depth e)). lia.
Qed.

Lemma depth_querySelectorAll e tags pc :
  In pc (querySelectorAll e tags) -> depth (snd pc) < depth e.
Proof.
  unfold querySelectorAll. intros H. apply filter_In in H.
  apply depth_descendants. exact (proj1 H).
Qed.

Ltac total_step :=
  match goal with
  | |- total (ret _) => apply total_ret
  | |- total generateId => apply total_generateId
  | |- total createSpacingParagraph => apply total_createSpacingParagraph
  | |- total (imageNode _) => apply total_imageNode
  | |- total (bind _ _) => apply total_bind; [|intros ?]
  | |- total (if ?b then _ else _) => destruct b
  | |- total (match ?x with _ => _ end) => destruct x
  end.

(** With fuel above twice the depth of the tree no converter runs out. *)
Lemma converters_total fuel :
  (forall e, 2 * depth e + 1 <= fuel -> total (processTextAndInlineElements fuel e)) /\
  (forall e, 2 * depth e + 2 <= fuel -> total (handleBlockElement fuel e)) /\
  (forall e, 2 * depth e + 1 <= fuel -> total (convertNodeToRicos fuel e)) /\
  (forall e, 2 * depth e + 1 <= fuel -> total (handleTable fuel e)).
Proof.
  induction fuel as [|fuel (IHp & IHb & IHc & IHt)].
  - repeat split; intros e He; lia.
  - repeat split; intros e He.
    + cbn [processTextAndInlineElements].
      apply total_forEach. intros st child Hin.
      apply depth_childNodes in Hin.
      destruct child as [txt|t a cs]; repeat total_step;
        solve [apply IHp; lia | apply IHb; lia].
    + cbn [handleBlockElement].
      repeat (total_step;
              try solve [apply IHp; lia | apply IHc; lia]).
      all: try (apply total_forEach; intros st child Hin;
                apply depth_childNodes in Hin;
                destruct child; repeat total_step; solve [apply IHc; lia]).
    + cbn [convertNodeToRicos].
      apply total_bind.
      * apply total_forEach. intros st child Hin.
        apply depth_childNodes in Hin.
        destruct child as [txt|t a cs]; repeat total_step;
          solve [apply IHp; lia | apply IHb; lia | apply IHc; lia | apply IHt; lia].
      * intros walked. apply total_forEach. intros st child Hin.
        destruct child; repeat total_step.
    + cbn [handleTable].
      destruct (querySelectorAll e ["tr"]) as [|r rows] eqn:Erows.
      * apply total_createSpacingParagraph.
      * rewrite <- Erows. apply total_bind; [|intros st; repeat total_step].
        apply total_forEach. intros st row Hrow.
        apply depth_querySelectorAll in Hrow.
        destruct (querySelectorAll (snd row) ["th"; "td"]) as [|c cells] eqn:Ecells.
        -- apply total_ret.
        -- rewrite <- Ecells. apply total_bind; [|intros; repeat total_step].
           apply total_forEach. intros st' cell Hcell.
           apply depth_querySelectorAll in Hcell.
           repeat total_step. apply IHp. lia.
Qed.

Theorem htmlToRicos_total body : total (htmlToRicos body).
Proof.
  unfold htmlToRicos. apply total_bind.
  - apply converters_total. unfold fuelFor. lia.
  - intros nodes. apply total_bind; [|intros; apply total_ret].
    generalize 0 (@None string) (@nil RNode).
    induction nodes as [|n rest IH]; intros i p acc; cbn [enhance].
    + apply total_ret.
    + repeat total_step; apply IH.
Qed.

(* ================================================================== *)
(** ** More rules for [post] *)

Lemma post_bind_ret {A B : Type} (P : B -> Prop) (a : A) (k : A -> M B) :
  post P (k a) -> post P (bind (ret a) k).
Proof. intros H. exact H. Qed.

Lemma post_bind_assoc {A B C : Type} (P : C -> Prop)
      (m : M A) (k : A -> M B) (h : B -> M C) :
  post P (bind m (fun a => bind (k a) h)) -> post P (bind (bind m k) h).
Proof.
  intros H s c s' E. apply (H s c s'). revert E. unfold bind.
  destruct (m s) as [[a s1]|]; auto.
Qed.

Lemma forEach_app {A S : Type} (l1 l2 : list A) (st : S) (body : S -> A -> M S) :
  forall s, forEach (l1 ++ l2) st body s =
            bind (forEach l1 st body) (fun st' => forEach l2 st' body) s.
Proof.
  revert st. induction l1 as [|x l1 IH]; intros st s; simpl.
  - reflexivity.
  - unfold bind in *.
    destruct (body st x s) as [[st1 s1]|]; [apply IH | reflexivity].
Qed.

Ltac post_step :=
  match goal with
  | |- post _ (ret _) => apply post_ret
  | |- post _ outOfFuel => apply post_outOfFuel
  | |- post _ (bind generateId _) => apply post_bind_any; intros ?
  | |- post _ (bind createSpacingParagraph _) =>
      eapply post_bind; [apply post_createSpacingParagraph | intros ? [? ->]]
  | |- post _ (bind (imageNode _) _) =>
      eapply post_bind; [apply post_imageNode | intros ? (? & ? & ->)]
  | |- post _ (bind (bind _ _) _) => apply post_bind_assoc
  | |- post _ (bind (ret _) _) => apply post_bind_ret
  | |- post _ (bind (if ?b then _ else _) _) => destruct b eqn:?
  | |- post _ (if ?b then _ else _) => destruct b eqn:?
  | |- post _ (match ?x with _ => _ end) => destruct x eqn:?
  end.

Lemma keeps_app st new : keeps st (st ++ new).
Proof. intros n H. apply in_or_app. left. exact H. Qed.

Lemma keeps_forEach {A : Type} (l : list A) (body : list RNode -> A -> M (list RNode)) :
  (forall st x, post (keeps st) (body st x)) ->
  forall st, post (keeps st) (forEach l st body).
Proof.
  intros Hbody st. apply (post_forEach (keeps st)).
  - intros st1 x _ H1. eapply post_weaken; [apply Hbody|].
    intros st2 H2 n Hn. apply H2, H1, Hn.
  - intros n Hn. exact Hn.
Qed.

(* ================================================================== *)
(** ** Claims settled by evaluation *)

(** C1 (the code departs from the claim).  For a body that consists solely
    of [<a href="http://x.com">t</a>] the entry point returns a single bare
    Text node without any decoration: the tree walker passes the [a] element
    itself to the inline processor, which only dispatches on children.  The
    same element inside a [p] does get [Link; Underline]. *)
Theorem C1_top_level_link_loses_decorations (ids : IdSource) :
  run (htmlToRicos (body [linkElement])) ids
  = Some {| docNodes := [TEXT "" {| text := "t"; decorations := None |}] |}
  /\ run (htmlToRicos (body [Element "P" [] [linkElement]])) ids
     = Some {| docNodes :=
                 [PARAGRAPH (ids 0)
                    [TEXT "" {| text := "t";
                                decorations :=
                                  Some [LINK "http://x.com" SELF true; UNDERLINE] |}]
                    None] |}.
Proof. split; reflexivity. Qed.

(** C3 (the code departs from the claim).  For the two-row table the Text
    leaf of the [th] cell carries no decoration at all, like the one of the
    [td] cell: Bold is attached only on the fallback path of an empty cell. *)
Theorem C3_header_cell_text_not_bold (ids : IdSource) :
  run (htmlToRicos (body [headerTable])) ids
  = Some {| docNodes :=
              [TABLE (ids 6)
                 [TABLE_ROW (ids 2)
                    [TABLE_CELL (ids 0)
                       [PARAGRAPH (ids 1)
                          [TEXT "" {| text := "H"; decorations := None |}] centered]
                       None];
                  TABLE_ROW (ids 5)
                    [TABLE_CELL (ids 3)
                       [PARAGRAPH (ids 4)
                          [TEXT "" {| text := "C"; decorations := None |}] centered]
                       None]]
                 (tableData 1 [50%Z; 50%Z])] |}.
Proof. reflexivity. Qed.

(** C5 (the code departs from the claim).  For a section [div] followed by
    a paragraph the tree walker emits the two extra spacing nodes at the very
    end of the sequence, after the nodes of the following sibling. *)
Theorem C5_section_spacing_appended_at_end (ids : IdSource) :
  run (convertNodeToRicos (fuelFor (body sectionThenParagraph))
                          (body sectionThenParagraph)) ids
  = Some [PARAGRAPH (ids 0) [plainText "a"] None;
          PARAGRAPH (ids 1) [plainText "b"] None;
          spacing (ids 2);
          spacing (ids 3)].
Proof. reflexivity. Qed.

(* ================================================================== *)
(** ** Blank and plain text *)

Lemma truthy_true s : s <> "" -> Js.truthy s = true.
Proof. intros H. unfold Js.truthy. apply negb_true_iff, String.eqb_neq. exact H. Qed.

Lemma nonblank_test txt :
  Js.trim txt <> "" -> Js.truthy txt && Js.truthy (Js.trim txt) = true.
Proof.
  intros H. rewrite (truthy_true (Js.trim txt) H), andb_true_r.
  apply truthy_true. intros ->. apply H. reflexivity.
Qed.

Lemma blank_test txt :
  Js.trim txt = "" -> Js.truthy txt && Js.truthy (Js.trim txt) = false.
Proof. intros ->. apply andb_false_r. Qed.

(** A loop whose body leaves the state alone returns the initial state. *)
Lemma forEach_skip {A S : Type} (l : list A) (body : S -> A -> M S) (st : S) :
  (forall x s, In x l -> body st x s = Some (st, s)) ->
  forall s, forEach l st body s = Some (st, s).
Proof.
  induction l as [|x l IH]; intros H s; simpl.
  - reflexivity.
  - unfold bind. rewrite (H x s (or_introl eq_refl)).
    apply IH. intros y s0 Hy. apply H. right. exact Hy.
Qed.

(** C9.  A body that is empty or holds only white-space text converts to
    the document with no nodes. *)
Theorem C9_blank_body_gives_empty_document tag attrs cs (ids : IdSource) :
  Forall blankText cs ->
  run (htmlToRicos (Element tag attrs cs)) ids = Some {| docNodes := [] |}.
Proof.
  intros H. rewrite Forall_forall in H.
  unfold run, htmlToRicos, fuelFor. rewrite Nat.add_1_r.
  cbn [convertNodeToRicos childNodes]. unfold bind at 1 2.
  rewrite forEach_skip.
  - cbn [fst]. rewrite forEach_skip; [reflexivity|].
    intros x s Hx. destruct (H x Hx) as (t & -> & _). reflexivity.
  - intros x s Hx. destruct (H x Hx) as (t & -> & Ht).
    cbn [fst snd]. rewrite (blank_test t Ht). reflexivity.
Qed.

Lemma C9_witness :
  run (htmlToRicos (Element "BODY" [] [TextNode "  "; TextNode newline]))
      (fun _ => "id") = Some {| docNodes := [] |}.
Proof.
  apply (C9_blank_body_gives_empty_document "BODY" []).
  repeat constructor; eexists; split; reflexivity.
Defined.

(** C2, as the code has it.  A body that holds one non-blank text node
    converts to a document with exactly one node, the bare Text leaf holding
    that text (the tree walker does not wrap it in a Paragraph), and there
    is no spacing node. *)
Theorem C2_plain_text_gives_bare_text_leaf tag attrs txt (ids : IdSource) :
  Js.trim txt <> "" ->
  exists doc,
    run (htmlToRicos (Element tag attrs [TextNode txt])) ids = Some doc /\
    docNodes doc = [plainText txt] /\
    existsb isSpacing (docNodes doc) = false.
Proof.
  intros H. eexists. split; [|split].
  - unfold run, htmlToRicos, fuelFor.
    cbn [depth fold_right Nat.max Nat.mul Nat.add].
    cbn [convertNodeToRicos childNodes forEach bind ret fst snd].
    rewrite (nonblank_test txt H). reflexivity.
  - reflexivity.
  - reflexivity.
Qed.

Lemma C2_witness :
  exists doc,
    run (htmlToRicos (Element "BODY" [] [TextNode "hello"])) (fun _ => "id") = Some doc /\
    docNodes doc = [plainText "hello"] /\
    existsb isSpacing (docNodes doc) = false.
Proof.
  apply (C2_plain_text_gives_bare_text_leaf "BODY" [] "hello").
  vm_compute. discriminate.
Defined.

(** C2 as stated fails: for the body "hello" the single node of the
    document is not a Paragraph. *)
Lemma C2_counterexample :
  exists doc,
    run (htmlToRicos (body [TextNode "hello"])) (fun _ => "id") = Some doc /\
    ~ (exists n, docNodes doc = [n] /\ paragraphHolding "hello" n).
Proof.
  eexists. split; [reflexivity|].
  intros (n & E & Hn). inversion E; subst n. exact Hn.
Qed.

(* ================================================================== *)
(** ** Inline images *)

Lemma imageDimension_spec t a ks name dflt :
  imageDimension (Element t a ks) name dflt = dimensionFrom a name dflt.
Proof.
  unfold imageDimension, dimensionFrom, hasAttribute, getAttribute, orElse, Js.truthy.
  destruct (lookupAttr name a) as [v|]; [|reflexivity].
  destruct (v =? "")%string; reflexivity.
Qed.

(** The [img] child leaves its Image node in whatever the inline processor
    returns. *)
Lemma inline_image_pushed fuel tag attrs before t a ks after
      (ids ids' : IdSource) out :
  Js.toLowerCase t = "img" ->
  processTextAndInlineElements fuel
    (Element tag attrs (before ++ Element t a ks :: after)) ids = Some (out, ids') ->
  exists id d,
    In (IMAGE id d) out /\
    width d = dimensionFrom a "width" 500 /\
    height d = dimensionFrom a "height" 300.
Proof.
  intros Ht E. destruct fuel as [|fuel]; [discriminate E|].
  cbn [processTextAndInlineElements childNodes] in E.
  rewrite forEach_app in E.
  apply bind_inv in E as (st1 & s1 & _ & E).
  cbn [forEach] in E.
  apply bind_inv in E as (st2 & s2 & E2 & E3).
  cbn [tagOf] in E2. rewrite Ht in E2.
  change (Some (st1 ++ [IMAGE (s1 0)
                          {| containerWidthSize := "CONTENT";
                             containerAlignment := CENTER;
                             textWrap := true;
                             srcUrl := orElse (getAttribute (Element t a ks) "src") "";
                             width := imageDimension (Element t a ks) "width" 500;
                             height := imageDimension (Element t a ks) "height" 300 |}],
                fun n => s1 (S n)) = Some (st2, s2)) in E2.
  inversion E2; subst st2 s2; clear E2.
  eexists _, _. split; [|split].
  - refine (keeps_forEach after _ _ _ _ _ _ E3 _ _).
    + intros st x. cbv beta.
      destruct x;
        repeat first [post_step | apply post_bind_any; intros ?];
        first [apply keeps_app | intros n Hn; exact Hn].
    + apply in_or_app. right. left. reflexivity.
  - apply imageDimension_spec.
  - apply imageDimension_spec.
Qed.

(** C6, as the code has it.  For every [img] child the inline processor
    meets, with fuel above twice the depth of the element, it returns, and
    the emitted Image node has width 500 and height 300 when the attribute
    is absent; when it is present the value is [parseInt] of the attribute
    text, of ["0"] when that text is empty, whatever the result. *)
Theorem C6_inline_image_dimensions fuel tag attrs before t a ks after
        (ids : IdSource) :
  Js.toLowerCase t = "img" ->
  2 * depth (Element tag attrs (before ++ Element t a ks :: after)) < fuel ->
  exists out ids' id d,
    processTextAndInlineElements fuel
      (Element tag attrs (before ++ Element t a ks :: after)) ids = Some (out, ids') /\
    In (IMAGE id d) out /\
    width d = dimensionFrom a "width" 500 /\
    height d = dimensionFrom a "height" 300.
Proof.
  intros Ht Hfuel.
  assert (Hf : 2 * depth (Element tag attrs (before ++ Element t a ks :: after)) + 1
               <= fuel) by lia.
  destruct (proj1 (converters_total fuel) _ Hf ids) as (out & ids' & E).
  destruct (inline_image_pushed fuel tag attrs before t a ks after ids ids' out Ht E)
    as (id & d & Hin & Hw & Hh).
  exists out, ids', id, d. repeat split; assumption.
Qed.

Lemma C6_witness :
  exists out ids' id d,
    processTextAndInlineElements 5
      (Element "P" [] ([TextNode "see "] ++
                       Element "IMG" [("src", "pic.png"); ("width", "40px")] [] :: []))
      (fun _ => "id") = Some (out, ids') /\
    In (IMAGE id d) out /\
    width d = dimensionFrom [("src", "pic.png"); ("width", "40px")] "width" 500 /\
    height d = dimensionFrom [("src", "pic.png"); ("width", "40px")] "height" 300.
Proof.
  apply (C6_inline_image_dimensions 5 "P" [] [TextNode "see "] "IMG"
           [("src", "pic.png"); ("width", "40px")] [] [] (fun _ => "id")).
  - reflexivity.
  - vm_compute. lia.
Defined.

(** C6 as stated fails: with [width="abc"], which [parseInt] cannot parse,
    the Image node has width [NaN], not 500. *)
Lemma C6_counterexample :
  Js.parseInt "abc" = Js.NaN /\
  exists id d,
    run (processTextAndInlineElements 5
           (Element "P" [] [Element "IMG" [("src", "pic.png"); ("width", "abc")] []]))
        (fun _ => "id") = Some [IMAGE id d] /\
    width d = Js.NaN /\ width d <> Js.Int 500 /\
    height d = Js.Int 300.
Proof.
  split; [reflexivity|].
  eexists _, _. split; [reflexivity|].
  cbn. repeat split; discriminate.
Qed.

(* ================================================================== *)
(** ** Layout metadata of a table *)

(** A loop whose body pushes one node per element. *)
Lemma forEach_length {A : Type} (l : list A) (body : list RNode -> A -> M (list RNode)) :
  (forall st x, post (fun st' => List.length st' = S (List.length st)) (body st x)) ->
  forall st, post (fun st' => List.length st' = List.length st + List.length l)
                  (forEach l st body).
Proof.
  intros Hbody. induction l as [|x l IH]; intros st; simpl.
  - apply post_ret. lia.
  - eapply post_bind; [apply Hbody|].
    intros st1 H1. eapply post_weaken; [apply IH|].
    intros st2 H2. cbv beta in *. cbn [List.length]. lia.
Qed.

Lemma rowsInvariant_push tableRows heights maxCols rowId rowCells n :
  rowsInvariant (tableRows, heights, maxCols) ->
  List.length rowCells = n ->
  rowsInvariant (tableRows ++ [TABLE_ROW rowId rowCells], heights ++ [50%Z],
                 Nat.max maxCols n).
Proof.
  unfold rowsInvariant. cbn [fst snd]. intros [Hh Hm] Hn. split.
  - rewrite Hh, length_app, repeat_app. reflexivity.
  - unfold maxCellCount in *. rewrite fold_left_app. cbn [fold_left cellCount].
    rewrite Hm, Hn. reflexivity.
Qed.

Lemma handleTable_layout fuel element :
  querySelectorAll element ["tr"] <> [] ->
  post (fun n => exists id rows,
            n = TABLE id rows
                  (tableData (maxCellCount rows)
                             (repeat 50%Z (List.length rows))))
       (handleTable fuel element).
Proof.
  intros Hrows. destruct fuel as [|fuel]; [apply post_outOfFuel|].
  cbn [handleTable].
  destruct (querySelectorAll element ["tr"]) as [|r rows] eqn:E; [contradiction|].
  apply (post_bind rowsInvariant).
  - apply post_forEach; [|split; reflexivity].
    intros [[tableRows heights] maxCols] parentAndRow _ Hst. cbn [fst snd].
    destruct (querySelectorAll (snd parentAndRow) ["th"; "td"]) as [|c cells] eqn:Ec.
    + apply post_ret. exact Hst.
    + rewrite <- Ec.
      eapply post_bind.
      * apply forEach_length. intros st x. repeat post_step.
        apply post_bind_any; intros content. repeat post_step.
        rewrite length_app. simpl. lia.
      * intros rowCells Hlen. post_step. post_step.
        apply rowsInvariant_push; [exact Hst | exact Hlen].
  - intros [[tableRows heights] maxCols] [Hh Hm]. cbn [fst snd] in *.
    post_step. post_step. exists a, tableRows. subst. reflexivity.
Qed.

(** C10.  For a table with at least one row that has a cell the emitted
    node is a Table whose layout metadata are constants: 150 and 140 once per
    column, the columns counted by the longest emitted row, 50 once per
    emitted row, border colour #CFCFCF, border width 1 and style solid. *)
Theorem C10_table_layout_is_constant fuel element (ids : IdSource) :
  hasRowWithCell element = true ->
  2 * depth element < fuel ->
  exists id rows td ids',
    handleTable fuel element ids = Some (TABLE id rows td, ids') /\
    colsWidthRatio td = repeat 150%Z (maxCellCount rows) /\
    colsMinWidth td = repeat 140%Z (maxCellCount rows) /\
    rowsHeight td = repeat 50%Z (List.length rows) /\
    borderColor td = "#CFCFCF" /\
    borderWidth td = 1%Z /\
    borderStyle td = "solid".
Proof.
  intros Hcell Hfuel.
  destruct (proj2 (proj2 (proj2 (converters_total fuel))) element
                  ltac:(lia) ids) as (n & ids' & E).
  assert (Hrows : querySelectorAll element ["tr"] <> []).
  { unfold hasRowWithCell in Hcell. intros Hnil. rewrite Hnil in Hcell. discriminate. }
  destruct (handleTable_layout fuel element Hrows ids n ids' E) as (id & rows & ->).
  exists id, rows, (tableData (maxCellCount rows) (repeat 50%Z (List.length rows))), ids'.
  repeat split. exact E.
Qed.

Lemma C10_witness :
  exists id rows td ids',
    handleTable 9 headerTable (fun _ => "id") = Some (TABLE id rows td, ids') /\
    colsWidthRatio td = repeat 150%Z (maxCellCount rows) /\
    colsMinWidth td = repeat 140%Z (maxCellCount rows) /\
    rowsHeight td = repeat 50%Z (List.length rows) /\
    borderColor td = "#CFCFCF" /\
    borderWidth td = 1%Z /\
    borderStyle td = "solid".
Proof.
  apply (C10_table_layout_is_constant 9 headerTable (fun _ => "id")).
  - reflexivity.
  - vm_compute. lia.
Defined.

(* ================================================================== *)
(** ** Every heading is followed by a spacing paragraph *)

Lemma headingsFollowed_app l1 l2 :
  headingsFollowed l1 = true -> headingsFollowed l2 = true ->
  headingsFollowed (l1 ++ l2) = true.
Proof.
  intros H1 H2. induction l1 as [|n l1 IH]; [exact H2|].
  cbn [headingsFollowed app] in *.
  apply andb_true_iff in H1 as [Hn Hrest].
  rewrite (IH Hrest), andb_true_r.
  destruct (isHeading n); [|reflexivity].
  destruct l1 as [|next l1]; [discriminate Hn | exact Hn].
Qed.

Ltac followed_solve :=
  cbn [fst snd];
  repeat rewrite <- app_assoc;
  repeat (apply headingsFollowed_app; [solve [assumption | reflexivity] | ]);
  solve [assumption | reflexivity].

Ltac conv_step IHp IHb IHc IHt :=
  first
    [ post_step
    | match goal with
      | |- post _ (bind (processTextAndInlineElements _ _) _) =>
          eapply post_bind; [apply IHp | intros ? ?]
      | |- post _ (bind (handleBlockElement _ _) _) =>
          eapply post_bind; [apply IHb | intros ? ?]
      | |- post _ (bind (convertNodeToRicos _ _) _) =>
          eapply post_bind; [apply IHc | intros ? ?]
      | |- post _ (bind (handleTable _ _) _) =>
          eapply post_bind; [apply IHt | intros ? ?]
      end ].

Lemma converters_headingsFollowed fuel :
  (forall e, post followedP (processTextAndInlineElements fuel e)) /\
  (forall e, post followedP (handleBlockElement fuel e)) /\
  (forall e, post followedP (convertNodeToRicos fuel e)) /\
  (forall e, post notHeadingP (handleTable fuel e)).
Proof.
  unfold followedP, notHeadingP.
  induction fuel as [|fuel (IHp & IHb & IHc & IHt)].
  - repeat split; intros e; apply post_outOfFuel.
  - repeat split; intros e.
    + cbn [processTextAndInlineElements].
      apply (post_forEach (fun l => headingsFollowed l = true)); [|reflexivity].
      intros st child _ Hst.
      destruct child; repeat conv_step IHp IHb IHc IHt; followed_solve.
    + cbn [handleBlockElement].
      repeat conv_step IHp IHb IHc IHt; try followed_solve.
      all: eapply (post_bind (fun l => headingsFollowed l = true));
        [ apply post_forEach; [|reflexivity];
          intros st child _ Hst;
          destruct child; repeat conv_step IHp IHb IHc IHt; followed_solve
        | intros; repeat conv_step IHp IHb IHc IHt; followed_solve ].
    + cbn [convertNodeToRicos].
      apply (post_bind (fun st => headingsFollowed (fst st) = true)).
      * apply post_forEach; [|reflexivity].
        intros [nodes flag] child _ Hst. cbn [fst snd] in *.
        destruct child; repeat conv_step IHp IHb IHc IHt;
          try followed_solve.
        cbn [fst]. apply headingsFollowed_app; [assumption|].
        cbn [headingsFollowed]. cbv beta in *.
        match goal with H : isHeading _ = false |- _ => rewrite H end.
        reflexivity.
      * intros [nodes flag] Hst. cbn [fst] in *.
        apply post_forEach; [|exact Hst].
        intros st child _ Hst'.
        destruct child; repeat conv_step IHp IHb IHc IHt; followed_solve.
    + cbn [handleTable].
      destruct (querySelectorAll e ["tr"]).
      * eapply post_weaken; [apply post_createSpacingParagraph|].
        intros n [id ->]. reflexivity.
      * apply post_bind_any. intros st. post_step. post_step. reflexivity.
Qed.

(* ================================================================== *)
(** ** The normalizer leaves no two spacing paragraphs side by side *)

Lemma endsWithSpacing_push l n : endsWithSpacing (l ++ [n]) = isSpacing n.
Proof. unfold endsWithSpacing. rewrite rev_app_distr. reflexivity. Qed.

Lemma endsWithSpacing_cons a b l :
  endsWithSpacing (a :: b :: l) = endsWithSpacing (b :: l).
Proof.
  unfold endsWithSpacing. cbn [rev].
  destruct (rev l ++ [b]) as [|x r] eqn:E.
  - destruct (rev l); discriminate E.
  - reflexivity.
Qed.

Lemma noAdjacentSpacing_push l n :
  noAdjacentSpacing l = true ->
  endsWithSpacing l && isSpacing n = false ->
  noAdjacentSpacing (l ++ [n]) = true.
Proof.
  induction l as [|a l IH]; intros Hl He; [reflexivity|].
  destruct l as [|b l].
  - cbn. unfold endsWithSpacing in He. cbn in He. rewrite He. reflexivity.
  - change ((a :: b :: l) ++ [n]) with (a :: (b :: l) ++ [n]).
    cbn [noAdjacentSpacing app] in *.
    apply andb_true_iff in Hl as [Hab Hl].
    rewrite Hab. cbn [andb]. apply IH; [exact Hl|].
    rewrite <- endsWithSpacing_cons with (a := a). exact He.
Qed.

Lemma noAdjacentSpacing_tail a l :
  noAdjacentSpacing (a :: l) = true -> noAdjacentSpacing l = true.
Proof. cbn [noAdjacentSpacing]. intros H. apply andb_true_iff in H. apply H. Qed.

Lemma noAdjacentSpacing_skipn k l :
  noAdjacentSpacing l = true -> noAdjacentSpacing (skipn k l) = true.
Proof.
  revert l. induction k as [|k IH]; intros l H; [exact H|].
  destruct l as [|a l]; [reflexivity|].
  cbn [skipn]. apply IH. exact (noAdjacentSpacing_tail a l H).
Qed.

Lemma noAdjacentSpacing_firstn k l :
  noAdjacentSpacing l = true -> noAdjacentSpacing (firstn k l) = true.
Proof.
  revert l. induction k as [|k IH]; intros l H; [reflexivity|].
  destruct l as [|a l]; [reflexivity|].
  cbn [firstn]. specialize (IH l (noAdjacentSpacing_tail a l H)).
  destruct l as [|b l]; [destruct k; reflexivity|].
  destruct k as [|k]; [reflexivity|].
  cbn [firstn noAdjacentSpacing] in *.
  apply andb_true_iff in H as [Hab _]. rewrite Hab. exact IH.
Qed.

Lemma noAdjacentSpacing_nth l :
  noAdjacentSpacing l = true ->
  forall i a b, nth_error l i = Some a -> nth_error l (S i) = Some b ->
                isSpacing a && isSpacing b = false.
Proof.
  induction l as [|x l IH]; intros H i a b Ha Hb.
  - destruct i; discriminate Ha.
  - destruct i as [|i].
    + cbn in Ha, Hb. inversion Ha; subst x.
      destruct l as [|y l]; [discriminate Hb|].
      cbn in Hb. inversion Hb; subst y.
      cbn [noAdjacentSpacing] in H. apply andb_true_iff in H as [H _].
      apply negb_true_iff in H. exact H.
    + apply (IH (noAdjacentSpacing_tail x l H) i); assumption.
Qed.

Lemma isHeading_typeOf n : (typeOf n =? "HEADING")%string = isHeading n.
Proof. destruct n; reflexivity. Qed.

Lemma heading_not_spacing n : isHeading n = true -> isSpacing n = false.
Proof. destruct n; try discriminate. reflexivity. Qed.

(** The first loop of the normalizer: on a sequence in which every heading
    is followed by a spacing paragraph it never pushes a spacing paragraph
    behind another one. *)
Lemma enhance_noAdjacentSpacing nodes :
  headingsFollowed nodes = true ->
  forall i previousType enhancedNodes,
    noAdjacentSpacing enhancedNodes = true ->
    (endsWithSpacing enhancedNodes = true -> previousIs previousType "SPACING" = true) ->
    post (fun out => noAdjacentSpacing out = true)
         (enhance i nodes previousType enhancedNodes).
Proof.
  induction nodes as [|node rest IH]; intros Hf i prev acc Hacc Hprev.
  - apply post_ret. exact Hacc.
  - cbn [headingsFollowed] in Hf. apply andb_true_iff in Hf as [Hnode Hrest].
    specialize (IH Hrest). cbn [enhance].
    destruct (isSpacing node && previousIs prev "SPACING") eqn:Eskip.
    { apply IH; assumption. }
    rewrite isHeading_typeOf.
    assert (Hends : previousIs prev "SPACING" = false -> endsWithSpacing acc = false).
    { intros Hp. destruct (endsWithSpacing acc); [|reflexivity].
      rewrite (Hprev eq_refl) in Hp. discriminate Hp. }
    destruct (isHeading node) eqn:Ehead.
    + destruct rest as [|next rest]; [discriminate Hnode|].
      rewrite Hnode. cbn [negb].
      pose proof (heading_not_spacing node Ehead) as Hns.
      destruct ((0 <? i) && negb (previousIs prev "SPACING")) eqn:Ebefore.
      * apply andb_true_iff in Ebefore as [_ Hp]. apply negb_true_iff in Hp.
        repeat post_step. apply IH.
        -- apply noAdjacentSpacing_push.
           ++ apply noAdjacentSpacing_push; [exact Hacc|].
              rewrite (Hends Hp). reflexivity.
           ++ rewrite Hns. apply andb_false_r.
        -- rewrite endsWithSpacing_push, Hns. discriminate.
      * repeat post_step. apply IH.
        -- apply noAdjacentSpacing_push; [exact Hacc|].
           rewrite Hns. apply andb_false_r.
        -- rewrite endsWithSpacing_push, Hns. discriminate.
    + destruct (isSpacing node) eqn:Esp.
      * cbn [andb] in Eskip. apply IH.
        -- apply noAdjacentSpacing_push; [exact Hacc|].
           rewrite (Hends Eskip). reflexivity.
        -- intros _. reflexivity.
      * apply IH.
        -- apply noAdjacentSpacing_push; [exact Hacc|].
           rewrite Esp. apply andb_false_r.
        -- rewrite endsWithSpacing_push, Esp. discriminate.
Qed.

(** C4.  Whatever the input, the entry point returns a document, and in its
    top-level sequence no two spacing paragraphs are neighbours. *)
Theorem C4_no_adjacent_spacing_nodes (input : Node) (ids : IdSource) :
  exists doc,
    run (htmlToRicos input) ids = Some doc /\
    forall i a b,
      nth_error (docNodes doc) i = Some a ->
      nth_error (docNodes doc) (S i) = Some b ->
      isSpacing a && isSpacing b = false.
Proof.
  destruct (htmlToRicos_total input ids) as (doc & ids' & E).
  exists doc. unfold run. rewrite E. split; [reflexivity|].
  apply noAdjacentSpacing_nth.
  unfold htmlToRicos in E.
  apply bind_inv in E as (nodes & s1 & Ewalk & E).
  apply bind_inv in E as (enhanced & s2 & Eenh & E).
  inversion E; subst doc ids'; clear E. cbn [docNodes].
  unfold cleanedNodes.
  apply noAdjacentSpacing_firstn, noAdjacentSpacing_skipn.
  refine (enhance_noAdjacentSpacing nodes _ 0 None [] eq_refl _ _ _ _ Eenh).
  - exact (proj1 (proj2 (proj2 (converters_headingsFollowed _))) _ _ _ _ Ewalk).
  - discriminate.
Qed.

(* ================================================================== *)
(** ** Trimming *)






(* ================================================================== *)
(** ** Content of the Text leaves *)



















Lemma forallb_skipn {A : Type} (p : A -> bool) k l :
  forallb p l = true -> forallb p (skipn k l) = true.
Proof.
  revert l. induction k as [|k IH]; intros l H; [exact H|].
  destruct l as [|a l]; [reflexivity|].
  cbn [skipn]. apply IH. cbn [forallb] in H. apply andb_true_iff in H. apply H.
Qed.

Lemma forallb_firstn {A : Type} (p : A -> bool) k l :
  forallb p l = true -> forallb p (firstn k l) = true.
Proof.
  revert l. induction k as [|k IH]; intros l H; [reflexivity|].
  destruct l as [|a l]; [reflexivity|].
  cbn [firstn forallb] in *. apply andb_true_iff in H as [Ha Hl].
  rewrite Ha. apply IH. exact Hl.
Qed.





(** Each of the other unchecked branches gives a blank Text node as well:
    an [em], a [u] and an [a] run, a [pre] block, a [td] and a [th]
    cell. *)
Lemma unchecked_branches_give_blank_text (ids : IdSource) :
  holdsBlankText
    (run (htmlToRicos (body [Element "P" [] [Element "EM" [] [TextNode "  "]]])) ids) /\
  holdsBlankText
    (run (htmlToRicos (body [Element "P" [] [Element "U" [] [TextNode "  "]]])) ids) /\
  holdsBlankText
    (run (htmlToRicos
            (body [Element "P" [] [Element "A" [("href", "http://x.com")]
                                     [TextNode "  "]]])) ids) /\
  holdsBlankText
    (run (htmlToRicos (body [Element "PRE" [] [TextNode "  "]])) ids) /\
  holdsBlankText
    (run (htmlToRicos
            (body [Element "TABLE" []
                     [Element "TBODY" []
                        [Element "TR" [] [Element "TD" [] [TextNode "  "]]]]])) ids) /\
  holdsBlankText
    (run (htmlToRicos
            (body [Element "TABLE" []
                     [Element "TBODY" []
                        [Element "TR" [] [Element "TH" [] [TextNode "  "]]]]])) ids).
Proof.
  repeat split; eexists _, _;
    (split; [reflexivity|]); (split; [left; reflexivity | reflexivity]).
Qed.

(* ================================================================== *)
(** ** Documents up to their identifiers *)

Lemma isSpacing_eraseIds n : isSpacing (eraseIds n) = isSpacing n.
Proof.
  destruct n as [id ns pd| | | | | | | | | | | |]; try reflexivity.
  destruct ns as [|x [|y l]]; try reflexivity; destruct x; reflexivity.
Qed.

Lemma typeOf_eraseIds n : typeOf (eraseIds n) = typeOf n.
Proof. destruct n; reflexivity. Qed.

Lemma sameNode_isSpacing n1 n2 : sameNode n1 n2 -> isSpacing n2 = isSpacing n1.
Proof.
  intros H. rewrite <- (isSpacing_eraseIds n1), <- (isSpacing_eraseIds n2), H.
  reflexivity.
Qed.

Lemma sameNode_typeOf n1 n2 : sameNode n1 n2 -> typeOf n2 = typeOf n1.
Proof.
  intros H. rewrite <- (typeOf_eraseIds n1), <- (typeOf_eraseIds n2), H.
  reflexivity.
Qed.

Lemma sameShape_length l1 l2 : sameShape l1 l2 -> List.length l2 = List.length l1.
Proof.
  intros H. rewrite <- (length_map eraseIds l1), <- (length_map eraseIds l2), H.
  reflexivity.
Qed.

Lemma spacingRun_eraseIds l : spacingRun (map eraseIds l) = spacingRun l.
Proof.
  induction l as [|n l IH]; [reflexivity|].
  cbn [map spacingRun]. rewrite isSpacing_eraseIds, IH. reflexivity.
Qed.

Lemma cleanedNodes_eraseIds l :
  map eraseIds (cleanedNodes l) = cleanedNodes (map eraseIds l).
Proof.
  unfold cleanedNodes, startIndex, endIndex.
  rewrite <- map_rev, !spacingRun_eraseIds, length_map, skipn_map, firstn_map.
  reflexivity.
Qed.

Section RelRules.

Context {A B C : Type}.

Lemma rel_bind_ret (R : B -> B -> Prop) (a1 a2 : A) (k1 k2 : A -> M B) :
  rel R (k1 a1) (k2 a2) -> rel R (bind (ret a1) k1) (bind (ret a2) k2).
Proof. intros H. exact H. Qed.

Lemma rel_bind_assoc (R : C -> C -> Prop)
      (m1 m2 : M A) (k1 k2 : A -> M B) (h1 h2 : B -> M C) :
  rel R (bind m1 (fun a => bind (k1 a) h1)) (bind m2 (fun a => bind (k2 a) h2)) ->
  rel R (bind (bind m1 k1) h1) (bind (bind m2 k2) h2).
Proof.
  intros H s1 s2 c1 c2 t1 t2 E1 E2. apply (H s1 s2 c1 c2 t1 t2).
  - revert E1. unfold bind. destruct (m1 s1) as [[a u]|]; auto.
  - revert E2. unfold bind. destruct (m2 s2) as [[a u]|]; auto.
Qed.

Lemma rel_bind_any (R : B -> B -> Prop) (m1 m2 : M A) (k1 k2 : A -> M B) :
  (forall a1 a2, rel R (k1 a1) (k2 a2)) -> rel R (bind m1 k1) (bind m2 k2).
Proof.
  intros H. apply (rel_bind (fun _ _ => True)); [|auto].
  intros s1 s2 a1 a2 t1 t2 _ _. exact I.
Qed.

End RelRules.

Lemma rel_createSpacingParagraph :
  rel (fun n1 n2 => exists i j, n1 = spacing i /\ n2 = spacing j)
      createSpacingParagraph createSpacingParagraph.
Proof.
  unfold createSpacingParagraph. apply rel_bind_any. intros i j.
  apply rel_ret. exists i, j. split; reflexivity.
Qed.

Lemma rel_imageNode element :
  rel (fun n1 n2 => exists i j d, n1 = IMAGE i d /\ n2 = IMAGE j d)
      (imageNode element) (imageNode element).
Proof.
  unfold imageNode. apply rel_bind_any. intros i j.
  apply rel_ret. eexists i, j, _. split; reflexivity.
Qed.

Ltac rel_step IHp IHb IHc IHt :=
  match goal with
  | |- rel _ (ret _) (ret _) => apply rel_ret
  | |- rel _ outOfFuel _ => apply rel_outOfFuel
  | |- rel _ (bind generateId _) (bind generateId _) =>
      apply rel_bind_any; intros ? ?
  | |- rel _ (bind createSpacingParagraph _) (bind createSpacingParagraph _) =>
      eapply rel_bind; [apply rel_createSpacingParagraph | intros ? ? (? & ? & -> & ->)]
  | |- rel _ (bind (imageNode _) _) (bind (imageNode _) _) =>
      eapply rel_bind; [apply rel_imageNode | intros ? ? (? & ? & ? & -> & ->)]
  | |- rel _ (bind (processTextAndInlineElements _ _) _) _ =>
      eapply rel_bind; [apply IHp | intros ? ? ?]
  | |- rel _ (bind (handleBlockElement _ _) _) _ =>
      eapply rel_bind; [apply IHb | intros ? ? ?]
  | |- rel _ (bind (convertNodeToRicos _ _) _) _ =>
      eapply rel_bind; [apply IHc | intros ? ? ?]
  | |- rel _ (bind (handleTable _ _) _) _ =>
      eapply rel_bind; [apply IHt | intros ? ? ?]
  | |- rel _ (bind (bind _ _) _) (bind (bind _ _) _) => apply rel_bind_assoc
  | |- rel _ (bind (ret _) _) (bind (ret _) _) => apply rel_bind_ret
  | |- rel _ (bind (if ?b then _ else _) _) (bind (if ?b then _ else _) _) =>
      destruct b eqn:?
  | |- rel _ (if ?b then _ else _) (if ?b then _ else _) => destruct b eqn:?
  | |- rel _ (match ?x with _ => _ end) (match ?x with _ => _ end) =>
      destruct x eqn:?
  end.

Ltac shape_solve :=
  unfold sameShape, sameNode, spacing, headingNode in *;
  cbn [fst snd map] in *; cbv beta in *;
  repeat rewrite map_app;
  cbn [map eraseIds];
  solve [congruence].

(** The converters never look at an identifier: run from two identifier
    sources they return the same nodes up to the identifiers. *)
Lemma converters_sameShape fuel :
  (forall e, rel sameShape (processTextAndInlineElements fuel e)
                           (processTextAndInlineElements fuel e)) /\
  (forall e, rel sameShape (handleBlockElement fuel e) (handleBlockElement fuel e)) /\
  (forall e, rel sameShape (convertNodeToRicos fuel e) (convertNodeToRicos fuel e)) /\
  (forall e, rel sameNode (handleTable fuel e) (handleTable fuel e)).
Proof.
  induction fuel as [|fuel (IHp & IHb & IHc & IHt)].
  - repeat split; intros e; apply rel_outOfFuel.
  - repeat split; intros e.
    + cbn [processTextAndInlineElements].
      apply (rel_forEach sameShape); [|reflexivity].
      intros st1 st2 child _ Hst.
      destruct child; repeat rel_step IHp IHb IHc IHt; shape_solve.
    + cbn [handleBlockElement].
      repeat rel_step IHp IHb IHc IHt; try shape_solve.
      all: eapply (rel_bind sameShape);
        [ apply rel_forEach; [|shape_solve];
          intros st1 st2 child _ Hst;
          destruct child; repeat rel_step IHp IHb IHc IHt; shape_solve
        | intros; repeat rel_step IHp IHb IHc IHt; shape_solve ].
    + cbn [convertNodeToRicos].
      apply (rel_bind (fun st1 st2 => sameShape (fst st1) (fst st2) /\ snd st1 = snd st2)).
      * apply rel_forEach; [|split; reflexivity].
        intros [nodes1 flag1] [nodes2 flag2] child _ [Hst Hflag].
        cbn [fst snd] in *. subst flag2.
        rewrite (sameShape_length nodes1 nodes2 Hst).
        destruct child; repeat rel_step IHp IHb IHc IHt;
          try (split; [|reflexivity]); shape_solve.
      * intros [nodes1 flag1] [nodes2 flag2] [Hst _]. cbn [fst] in *.
        apply rel_forEach; [|exact Hst].
        intros st1 st2 child _ Hst'.
        destruct child; repeat rel_step IHp IHb IHc IHt; shape_solve.
    + cbn [handleTable].
      destruct (querySelectorAll e ["tr"]) as [|r rows] eqn:Erows.
      * intros s1 s2 a1 a2 t1 t2 E1 E2.
        destruct (rel_createSpacingParagraph s1 s2 a1 a2 t1 t2 E1 E2)
          as (i & j & -> & ->).
        reflexivity.
      * rewrite <- Erows.
        apply (rel_bind (fun st1 st2 => sameShape (fst (fst st1)) (fst (fst st2)) /\
                                        snd (fst st1) = snd (fst st2) /\
                                        snd st1 = snd st2)).
        -- apply rel_forEach; [|repeat split; reflexivity].
           intros [[rows1 heights1] cols1] [[rows2 heights2] cols2] row _ (Hst & Hh & Hc).
           cbn [fst snd] in *. subst heights2 cols2.
           destruct (querySelectorAll (snd row) ["th"; "td"]) as [|c cells] eqn:Ecells.
           ++ apply rel_ret. repeat split. exact Hst.
           ++ rewrite <- Ecells.
              apply (rel_bind sameShape).
              ** apply rel_forEach; [|reflexivity].
                 intros cells1 cells2 cell _ Hcells.
                 repeat rel_step IHp IHb IHc IHt.
                 match goal with
                 | H : sameShape ?l1 ?l2 |- _ =>
                     destruct l1; destruct l2; try discriminate H
                 end; shape_solve.
              ** intros cells1 cells2 Hcells. repeat rel_step IHp IHb IHc IHt.
                 repeat split. shape_solve.
        -- intros [[rows1 heights1] cols1] [[rows2 heights2] cols2] (Hst & Hh & Hc).
           cbn [fst snd] in *. subst heights2 cols2.
           repeat rel_step IHp IHb IHc IHt. shape_solve.
Qed.

Lemma enhance_sameShape nodes1 :
  forall nodes2, sameShape nodes1 nodes2 ->
  forall i previousType enhanced1 enhanced2,
    sameShape enhanced1 enhanced2 ->
    rel sameShape (enhance i nodes1 previousType enhanced1)
                  (enhance i nodes2 previousType enhanced2).
Proof.
  induction nodes1 as [|n1 rest1 IH]; intros [|n2 rest2] Hn i prev acc1 acc2 Hacc;
    try discriminate Hn.
  - apply rel_ret. exact Hacc.
  - unfold sameShape in Hn. cbn [map] in Hn.
    injection Hn as Hnode Hrest.
    specialize (IH rest2 Hrest).
    cbn [enhance].
    rewrite (sameNode_isSpacing n1 n2 Hnode), (sameNode_typeOf n1 n2 Hnode).
    assert (Hnext : match rest2 with
                    | nextNode :: _ => negb (isSpacing nextNode)
                    | [] => true
                    end
                    = match rest1 with
                      | nextNode :: _ => negb (isSpacing nextNode)
                      | [] => true
                      end).
    { destruct rest1 as [|x1 r1], rest2 as [|x2 r2]; try discriminate Hrest;
        [reflexivity|].
      cbn [map] in Hrest. injection Hrest as Hx _.
      rewrite (sameNode_isSpacing x1 x2 Hx). reflexivity. }
    rewrite Hnext.
    repeat rel_step I I I I; apply IH; shape_solve.
Qed.

(** C8, as the code has it.  Two invocations on the same input both return
    a document, and the two documents are identical up to the node
    identifiers, which [generateId] draws at random. *)
Theorem C8_same_document_up_to_identifiers (input : Node) (ids1 ids2 : IdSource) :
  exists doc1 doc2,
    run (htmlToRicos input) ids1 = Some doc1 /\
    run (htmlToRicos input) ids2 = Some doc2 /\
    map eraseIds (docNodes doc1) = map eraseIds (docNodes doc2).
Proof.
  destruct (htmlToRicos_total input ids1) as (doc1 & t1 & E1).
  destruct (htmlToRicos_total input ids2) as (doc2 & t2 & E2).
  exists doc1, doc2. unfold run. rewrite E1, E2.
  split; [reflexivity|]. split; [reflexivity|].
  unfold htmlToRicos in E1, E2.
  apply bind_inv in E1 as (nodes1 & u1 & W1 & E1).
  apply bind_inv in E1 as (enh1 & v1 & N1 & E1).
  apply bind_inv in E2 as (nodes2 & u2 & W2 & E2).
  apply bind_inv in E2 as (enh2 & v2 & N2 & E2).
  inversion E1; inversion E2; subst; clear E1 E2. cbn [docNodes].
  rewrite !cleanedNodes_eraseIds. f_equal.
  assert (Hw : sameShape nodes1 nodes2)
    by exact (proj1 (proj2 (proj2 (converters_sameShape _))) _ _ _ _ _ _ _ W1 W2).
  exact (enhance_sameShape nodes1 nodes2 Hw 0 None [] [] eq_refl _ _ _ _ _ _ N1 N2).
Qed.

(** C8 as stated fails: the paragraph of [<p>x</p>] takes its identifier
    from the random source, so two invocations return different documents. *)
Lemma C8_counterexample :
  exists doc1 doc2,
    run (htmlToRicos (body [Element "P" [] [TextNode "x"]])) (fun _ => "k3f9a1") = Some doc1 /\
    run (htmlToRicos (body [Element "P" [] [TextNode "x"]])) (fun _ => "z80qm2") = Some doc2 /\
    doc1 <> doc2.
Proof.
  eexists _, _. split; [reflexivity|]. split; [reflexivity|].
  discriminate.
Qed.

(* ================================================================== *)
(** ** More fuel changes nothing *)

Lemma refines_refl {A : Type} (m : M A) : refines m m.
Proof. intros s r H. exact H. Qed.

Lemma refines_outOfFuel {A : Type} (m : M A) : refines outOfFuel m.
Proof. intros s r H. discriminate H. Qed.

Lemma refines_bind {A B : Type} (m1 m2 : M A) (k1 k2 : A -> M B) :
  refines m1 m2 -> (forall a, refines (k1 a) (k2 a)) ->
  refines (bind m1 k1) (bind m2 k2).
Proof.
  intros Hm Hk s [b s'] E.
  destruct (bind_inv _ _ _ _ _ E) as (a & s1 & E1 & E2).
  unfold bind. rewrite (Hm s (a, s1) E1). exact (Hk a s1 (b, s') E2).
Qed.

Lemma refines_forEach {A S : Type} (l : list A) (body1 body2 : S -> A -> M S) :
  (forall st x, refines (body1 st x) (body2 st x)) ->
  forall st, refines (forEach l st body1) (forEach l st body2).
Proof.
  intros Hbody. induction l as [|x l IH]; intros st; simpl.
  - apply refines_refl.
  - apply refines_bind; [apply Hbody | exact IH].
Qed.

Ltac refines_step :=
  match goal with
  | |- refines ?m ?m => apply refines_refl
  | |- refines (bind _ _) (bind _ _) => apply refines_bind; [|intros ?]
  | |- refines (forEach ?l ?st _) (forEach ?l ?st _) =>
      apply refines_forEach; intros ? ?
  | |- refines (if ?b then _ else _) (if ?b then _ else _) => destruct b
  | |- refines (match ?x with _ => _ end) (match ?x with _ => _ end) => destruct x
  end.

Lemma converters_more_fuel fuel :
  (forall e, refines (processTextAndInlineElements fuel e)
                     (processTextAndInlineElements (S fuel) e)) /\
  (forall e, refines (handleBlockElement fuel e) (handleBlockElement (S fuel) e)) /\
  (forall e, refines (convertNodeToRicos fuel e) (convertNodeToRicos (S fuel) e)) /\
  (forall e, refines (handleTable fuel e) (handleTable (S fuel) e)).
Proof.
  induction fuel as [|fuel (IHp & IHb & IHc & IHt)].
  - repeat split; intros e; apply refines_outOfFuel.
  - repeat split; intros e.
    + cbn [processTextAndInlineElements].
      repeat first [apply IHp | apply IHb | apply IHc | apply IHt | refines_step].
    + cbn [handleBlockElement].
      repeat first [apply IHp | apply IHb | apply IHc | apply IHt | refines_step].
    + cbn [convertNodeToRicos].
      repeat first [apply IHp | apply IHb | apply IHc | apply IHt | refines_step].
    + cbn [handleTable].
      repeat first [apply IHp | apply IHb | apply IHc | apply IHt | refines_step].
Qed.

(** The tree walker returns the same sequence with any fuel above the one
    [htmlToRicos] hands over. *)
Theorem convertNodeToRicos_fuel_irrelevant input extra (ids : IdSource) :
  convertNodeToRicos (extra + fuelFor input) input ids
  = convertNodeToRicos (fuelFor input) input ids.
Proof.
  induction extra as [|extra IH]; [reflexivity|].
  destruct (proj1 (proj2 (proj2 (converters_total (fuelFor input)))) input
                  (Nat.le_refl _) ids) as (a & s' & E).
  rewrite E in *. cbn [Nat.add].
  apply (proj1 (proj2 (proj2 (converters_more_fuel _)))). exact IH.
Qed.

(* ================================================================== *)
(** ** The two trimming loops *)

Lemma spacingRun_le l : spacingRun l <= List.length l.
Proof.
  induction l as [|n l IH]; cbn [spacingRun List.length]; [lia|].
  destruct (isSpacing n); lia.
Qed.

Lemma dropSpacing_cons n l :
  dropSpacing (n :: l) = if isSpacing n then dropSpacing l else n :: l.
Proof. unfold dropSpacing. cbn [spacingRun]. destruct (isSpacing n); reflexivity. Qed.

Lemma dropSpacing_head l n : hd_error (dropSpacing l) = Some n -> isSpacing n = false.
Proof.
  induction l as [|x l IH]; [discriminate|].
  rewrite dropSpacing_cons. destruct (isSpacing x) eqn:E; [exact IH|].
  cbn. intros H. inversion H; subst. exact E.
Qed.

Lemma dropSpacing_content l :
  filter isContent (dropSpacing l) = filter isContent l.
Proof.
  induction l as [|x l IH]; [reflexivity|].
  rewrite dropSpacing_cons. destruct (isSpacing x) eqn:E; [|reflexivity].
  cbn [filter]. unfold isContent at 2. rewrite E. exact IH.
Qed.

Lemma dropSpacing_all l :
  forallb isSpacing l = true -> spacingRun l = List.length l.
Proof.
  induction l as [|x l IH]; [reflexivity|].
  cbn [forallb spacingRun List.length]. intros H.
  apply andb_true_iff in H as [Hx Hl]. rewrite Hx, (IH Hl). reflexivity.
Qed.

Lemma spacingRun_skipn_nil l :
  skipn (spacingRun l) l = [] -> forallb isSpacing l = true.
Proof.
  induction l as [|x l IH]; [reflexivity|].
  cbn [spacingRun forallb]. destruct (isSpacing x); [exact IH | discriminate].
Qed.

(** A run of spacing paragraphs stops inside [l1] when [l1] holds a node
    of another kind. *)
Lemma spacingRun_app l1 l2 :
  forallb isSpacing l1 = false -> spacingRun (l1 ++ l2) = spacingRun l1.
Proof.
  induction l1 as [|x l1 IH]; [discriminate|].
  cbn [forallb app spacingRun]. destruct (isSpacing x); [|reflexivity].
  cbn [andb]. intros H. rewrite (IH H). reflexivity.
Qed.

Lemma forallb_rev {A : Type} (p : A -> bool) l : forallb p (rev l) = forallb p l.
Proof.
  induction l as [|x l IH]; [reflexivity|].
  cbn [rev forallb]. rewrite forallb_app, IH. cbn [forallb].
  rewrite andb_true_r. apply andb_comm.
Qed.

(** The index arithmetic of the clean-up amounts to dropping the spacing
    paragraphs at the front, then those at the back. *)
Lemma cleanedNodes_dropSpacing l :
  cleanedNodes l = rev (dropSpacing (rev (dropSpacing l))).
Proof.
  unfold cleanedNodes, startIndex, endIndex.
  pose proof (firstn_skipn (spacingRun l) l) as Hsplit.
  fold (dropSpacing l) in *.
  destruct (dropSpacing l) as [|x r] eqn:El.
  - destruct (Z.to_nat _); reflexivity.
  - set (l' := x :: r) in *.
    assert (Hx : forallb isSpacing l' = false).
    { pose proof (dropSpacing_head l x) as H. rewrite El in H.
      subst l'. cbn [forallb]. rewrite (H eq_refl). reflexivity. }
    assert (Hlen : List.length l = spacingRun l + List.length l').
    { rewrite <- Hsplit at 1. rewrite length_app, firstn_length_le; [reflexivity|].
      apply spacingRun_le. }
    assert (Hrun : spacingRun (rev l) = spacingRun (rev l')).
    { rewrite <- Hsplit at 1. rewrite rev_app_distr.
      apply spacingRun_app. rewrite forallb_rev. exact Hx. }
    rewrite Hrun. unfold dropSpacing at 1.
    rewrite skipn_rev, rev_involutive. f_equal.
    pose proof (spacingRun_le (rev l')) as Hle. rewrite length_rev in Hle.
    lia.
Qed.

Lemma cleanedNodes_content l :
  filter isContent (cleanedNodes l) = filter isContent l.
Proof.
  rewrite cleanedNodes_dropSpacing.
  rewrite filter_rev, dropSpacing_content, filter_rev, rev_involutive.
  apply dropSpacing_content.
Qed.

Lemma spacingRun_snoc l x :
  isSpacing x = false -> spacingRun (l ++ [x]) <= List.length l.
Proof.
  intros Hx. induction l as [|y t IH]; cbn [app spacingRun List.length].
  - rewrite Hx. lia.
  - destruct (isSpacing y); lia.
Qed.

Lemma cleanedNodes_first l n :
  hd_error (cleanedNodes l) = Some n -> isSpacing n = false.
Proof.
  rewrite cleanedNodes_dropSpacing.
  remember (dropSpacing l) as l' eqn:El.
  destruct l' as [|x r]; [discriminate|].
  assert (Hx : isSpacing x = false).
  { apply (dropSpacing_head l). rewrite <- El. reflexivity. }
  (* what is dropped at the back never reaches [x] *)
  unfold dropSpacing at 1. rewrite skipn_rev, rev_involutive.
  pose proof (spacingRun_snoc (rev r) x Hx) as Hrun.
  rewrite length_rev in Hrun. cbn [rev List.length].
  replace (S (List.length r) - spacingRun (rev r ++ [x]))
    with (S (List.length r - spacingRun (rev r ++ [x]))) by lia.
  cbn [firstn hd_error]. intros H. inversion H; subst. exact Hx.
Qed.

Lemma cleanedNodes_last l n :
  hd_error (rev (cleanedNodes l)) = Some n -> isSpacing n = false.
Proof.
  rewrite cleanedNodes_dropSpacing, rev_involutive. apply dropSpacing_head.
Qed.

(* ================================================================== *)
(** ** What the normalizer keeps and what it adds *)

Lemma filter_push {A : Type} (p : A -> bool) l x :
  filter p (l ++ [x]) = filter p l ++ (if p x then [x] else []).
Proof. rewrite filter_app. reflexivity. Qed.

Lemma isContent_created id : isContent (PARAGRAPH id [plainText " "] None) = false.
Proof. reflexivity. Qed.

(** The first loop only adds and drops spacing paragraphs. *)
Lemma enhance_content nodes :
  forall i previousType enhancedNodes,
    post (fun out => filter isContent out
                     = filter isContent enhancedNodes ++ filter isContent nodes)
         (enhance i nodes previousType enhancedNodes).
Proof.
  induction nodes as [|node rest IH]; intros i prev acc.
  - apply post_ret. cbn [filter]. rewrite app_nil_r. reflexivity.
  - assert (Hc : filter isContent (node :: rest)
                 = (if isContent node then [node] else []) ++ filter isContent rest)
      by (cbn [filter]; destruct (isContent node); reflexivity).
    rewrite Hc. clear Hc. cbn [enhance].
    destruct (isSpacing node && previousIs prev "SPACING") eqn:Eskip.
    { apply andb_true_iff in Eskip as [Esp _].
      unfold isContent at 3. rewrite Esp. apply IH. }
    rewrite isHeading_typeOf.
    destruct (isHeading node) eqn:Ehead.
    + assert (Hn : isContent node = true)
        by (unfold isContent; rewrite (heading_not_spacing node Ehead); reflexivity).
      repeat post_step;
        (eapply post_weaken; [apply IH|]); cbv beta; intros out ->;
        rewrite ?filter_push, ?isContent_created, Hn, ?app_nil_r, <- ?app_assoc;
        reflexivity.
    + (eapply post_weaken; [destruct (isSpacing node); apply IH|]);
        cbv beta; intros out ->;
        rewrite filter_push, <- app_assoc; reflexivity.
Qed.

Lemma endsWithHeading_push l n : endsWithHeading (l ++ [n]) = isHeading n.
Proof. unfold endsWithHeading. rewrite rev_app_distr. reflexivity. Qed.

Lemma lastFrames_intro l n :
  (endsWithHeading l = true -> isSpacing n = true) ->
  (isHeading n = true -> l = [] \/ endsWithSpacing l = true) ->
  lastFrames l n = true.
Proof.
  unfold lastFrames, endsWithHeading, endsWithSpacing.
  destruct (rev l) as [|a r] eqn:E; [reflexivity|].
  intros H1 H2. apply andb_true_iff. split.
  - destruct (isHeading a); [|reflexivity]. rewrite (H1 eq_refl). reflexivity.
  - destruct (isHeading n); [|reflexivity].
    destruct (H2 eq_refl) as [Hl | Hl]; [subst l; discriminate E | rewrite Hl; reflexivity].
Qed.

Lemma lastFrames_cons a b l n : lastFrames (a :: b :: l) n = lastFrames (b :: l) n.
Proof.
  unfold lastFrames. cbn [rev].
  destruct (rev l ++ [b]) as [|x r] eqn:E; [|reflexivity].
  destruct (rev l); discriminate E.
Qed.

Lemma headingsFramed_push l n :
  headingsFramed l = true -> lastFrames l n = true ->
  headingsFramed (l ++ [n]) = true.
Proof.
  induction l as [|a l IH]; intros Hl Hn; [reflexivity|].
  destruct l as [|b l].
  - cbn. unfold lastFrames in Hn. cbn in Hn. rewrite Hn. reflexivity.
  - change ((a :: b :: l) ++ [n]) with (a :: (b :: l) ++ [n]).
    cbn [headingsFramed app] in *.
    apply andb_true_iff in Hl as [Hab Hl].
    rewrite Hab. cbn [andb]. apply IH; [exact Hl|].
    rewrite <- (lastFrames_cons a). exact Hn.
Qed.

Lemma headingsFramed_tail a l :
  headingsFramed (a :: l) = true -> headingsFramed l = true.
Proof. cbn [headingsFramed]. intros H. apply andb_true_iff in H. apply H. Qed.

Lemma headingsFramed_skipn k l :
  headingsFramed l = true -> headingsFramed (skipn k l) = true.
Proof.
  revert l. induction k as [|k IH]; intros l H; [exact H|].
  destruct l as [|a l]; [reflexivity|].
  cbn [skipn]. apply IH. exact (headingsFramed_tail a l H).
Qed.

Lemma headingsFramed_firstn k l :
  headingsFramed l = true -> headingsFramed (firstn k l) = true.
Proof.
  revert l. induction k as [|k IH]; intros l H; [reflexivity|].
  destruct l as [|a l]; [reflexivity|].
  cbn [firstn]. specialize (IH l (headingsFramed_tail a l H)).
  destruct l as [|b l]; [destruct k; reflexivity|].
  destruct k as [|k]; [reflexivity|].
  cbn [firstn headingsFramed] in *.
  apply andb_true_iff in H as [Hab _]. rewrite Hab. exact IH.
Qed.

Lemma headingsFramed_nth l :
  headingsFramed l = true ->
  forall i a b, nth_error l i = Some a -> nth_error l (S i) = Some b ->
                (isHeading a = true -> isSpacing b = true) /\
                (isHeading b = true -> isSpacing a = true).
Proof.
  induction l as [|x l IH]; intros H i a b Ha Hb.
  - destruct i; discriminate Ha.
  - destruct i as [|i].
    + cbn in Ha, Hb. inversion Ha; subst x.
      destruct l as [|y l]; [discriminate Hb|].
      cbn in Hb. inversion Hb; subst y.
      cbn [headingsFramed] in H. apply andb_true_iff in H as [H _].
      apply andb_true_iff in H as [H1 H2].
      split; intros E; rewrite E in *; [exact H1 | exact H2].
    + apply (IH (headingsFramed_tail x l H) i); assumption.
Qed.

Lemma typeOf_not_spacing n : previousIs (Some (typeOf n)) "SPACING" = false.
Proof. destruct n; reflexivity. Qed.

(** The first loop frames every heading, whatever sequence it is given. *)
Lemma enhance_headingsFramed nodes :
  forall i previousType enhancedNodes,
    headingsFramed enhancedNodes = true ->
    (i = 0 -> enhancedNodes = []) ->
    (previousIs previousType "SPACING" = true -> endsWithSpacing enhancedNodes = true) ->
    (endsWithHeading enhancedNodes = true ->
     startsWithSpacing nodes = true /\ previousIs previousType "SPACING" = false) ->
    post (fun out => headingsFramed out = true)
         (enhance i nodes previousType enhancedNodes).
Proof.
  induction nodes as [|node rest IH]; intros i prev acc Hf H0 Hs Hh.
  - apply post_ret. exact Hf.
  - cbn [enhance].
    destruct (isSpacing node && previousIs prev "SPACING") eqn:Eskip.
    { apply andb_true_iff in Eskip as [_ Ep].
      apply IH; [exact Hf | discriminate | exact Hs |].
      intros E. destruct (Hh E) as [_ Hp]. rewrite Hp in Ep. discriminate Ep. }
    rewrite isHeading_typeOf.
    destruct (isHeading node) eqn:Ehead.
    + pose proof (heading_not_spacing node Ehead) as Hns.
      assert (Hnh : endsWithHeading acc = false).
      { destruct (endsWithHeading acc); [|reflexivity].
        destruct (Hh eq_refl) as [Hsp _]. cbn in Hsp. rewrite Hsp in Hns.
        discriminate Hns. }
      assert (Hnext : match rest with
                      | nextNode :: _ => negb (isSpacing nextNode)
                      | [] => true
                      end = negb (startsWithSpacing rest))
        by (destruct rest; reflexivity).
      rewrite Hnext. clear Hnext.
      assert (Hbefore : forall acc1,
                 headingsFramed acc1 = true ->
                 endsWithHeading acc1 = false ->
                 (acc1 = [] \/ endsWithSpacing acc1 = true) ->
                 post (fun out => headingsFramed out = true)
                      (enhanced3 <-
                         (if negb (startsWithSpacing rest)
                          then spacing <- createSpacingParagraph ;;
                               ret ((acc1 ++ [node]) ++ [spacing])
                          else ret (acc1 ++ [node])) ;;
                       enhance (S i) rest (Some "HEADING") enhanced3)).
      { intros acc1 Hf1 Hh1 Hs1.
        assert (Hf2 : headingsFramed (acc1 ++ [node]) = true).
        { apply headingsFramed_push; [exact Hf1|].
          apply lastFrames_intro; [rewrite Hh1; discriminate | intros _; exact Hs1]. }
        destruct (startsWithSpacing rest) eqn:En; cbn [negb]; repeat post_step.
        - apply IH; [exact Hf2 | discriminate | discriminate |].
          intros _. split; reflexivity.
        - apply IH.
          + apply headingsFramed_push; [exact Hf2|].
            apply lastFrames_intro; [reflexivity | discriminate].
          + discriminate.
          + discriminate.
          + rewrite endsWithHeading_push. discriminate. }
      destruct ((0 <? i) && negb (previousIs prev "SPACING")) eqn:Ebefore.
      * do 3 post_step. apply Hbefore.
        -- apply headingsFramed_push; [exact Hf|].
           apply lastFrames_intro; [rewrite Hnh; discriminate | discriminate].
        -- rewrite endsWithHeading_push. reflexivity.
        -- right. rewrite endsWithSpacing_push. reflexivity.
      * post_step. apply Hbefore; [exact Hf | exact Hnh |].
        apply andb_false_iff in Ebefore as [Ei|Ep].
        -- left. apply H0. apply Nat.ltb_ge in Ei. lia.
        -- right. apply Hs. apply negb_false_iff. exact Ep.
    + destruct (isSpacing node) eqn:Esp.
      * apply IH.
        -- apply headingsFramed_push; [exact Hf|].
           apply lastFrames_intro; [intros _; exact Esp | rewrite Ehead; discriminate].
        -- discriminate.
        -- intros _. rewrite endsWithSpacing_push. exact Esp.
        -- rewrite endsWithHeading_push, Ehead. discriminate.
      * apply IH.
        -- apply headingsFramed_push; [exact Hf|].
           apply lastFrames_intro; [|rewrite Ehead; discriminate].
           intros E. destruct (Hh E) as [Hsp _]. exact Hsp.
        -- discriminate.
        -- rewrite typeOf_not_spacing. discriminate.
        -- rewrite endsWithHeading_push, Ehead. discriminate.
Qed.

Lemma run_htmlToRicos_inv input (ids : IdSource) doc :
  run (htmlToRicos input) ids = Some doc ->
  exists nodes s1 enhanced s2,
    convertNodeToRicos (fuelFor input) input ids = Some (nodes, s1) /\
    enhance 0 nodes None [] s1 = Some (enhanced, s2) /\
    docNodes doc = cleanedNodes enhanced.
Proof.
  unfold run. destruct (htmlToRicos input ids) as [[d s]|] eqn:E; [|discriminate].
  cbn. intros H. inversion H; subst d. unfold htmlToRicos in E.
  apply bind_inv in E as (nodes & s1 & Ewalk & E).
  apply bind_inv in E as (enhanced & s2 & Eenh & E).
  inversion E; subst. eexists nodes, s1, enhanced, _.
  split; [exact Ewalk|]. split; [exact Eenh | reflexivity].
Qed.

Lemma run_htmlToRicos_total input (ids : IdSource) :
  exists doc, run (htmlToRicos input) ids = Some doc.
Proof.
  destruct (htmlToRicos_total input ids) as (doc & ids' & E).
  exists doc. unfold run. rewrite E. reflexivity.
Qed.

(** X1.  A document that is not empty neither starts nor ends with a
    spacing paragraph. *)
Theorem X1_document_ends_are_not_spacing input (ids : IdSource) :
  exists doc,
    run (htmlToRicos input) ids = Some doc /\
    (forall n, hd_error (docNodes doc) = Some n -> isSpacing n = false) /\
    (forall n, hd_error (rev (docNodes doc)) = Some n -> isSpacing n = false).
Proof.
  destruct (run_htmlToRicos_total input ids) as (doc & H).
  exists doc. split; [exact H|].
  destruct (run_htmlToRicos_inv input ids doc H)
    as (nodes & s1 & enhanced & s2 & _ & _ & ->).
  split; intros n; [apply cleanedNodes_first | apply cleanedNodes_last].
Qed.

(** X2.  In the document every top-level heading has a spacing paragraph
    right before it unless it is the first node, and right after it unless
    it is the last node. *)
Theorem X2_headings_are_framed_by_spacing input (ids : IdSource) :
  exists doc,
    run (htmlToRicos input) ids = Some doc /\
    forall i a b,
      nth_error (docNodes doc) i = Some a ->
      nth_error (docNodes doc) (S i) = Some b ->
      (isHeading a = true -> isSpacing b = true) /\
      (isHeading b = true -> isSpacing a = true).
Proof.
  destruct (run_htmlToRicos_total input ids) as (doc & H).
  exists doc. split; [exact H|].
  destruct (run_htmlToRicos_inv input ids doc H)
    as (nodes & s1 & enhanced & s2 & _ & Eenh & ->).
  apply headingsFramed_nth. unfold cleanedNodes.
  apply headingsFramed_firstn, headingsFramed_skipn.
  refine (enhance_headingsFramed nodes 0 None [] eq_refl _ _ _ _ _ _ Eenh).
  - reflexivity.
  - discriminate.
  - discriminate.
Qed.

(** X3.  Normalization touches spacing paragraphs only: the nodes of the
    document that are not spacing paragraphs are those the tree walker
    returned for the body, in the same order. *)
Theorem X3_normalizer_keeps_content input (ids : IdSource) :
  exists doc nodes ids',
    run (htmlToRicos input) ids = Some doc /\
    convertNodeToRicos (fuelFor input) input ids = Some (nodes, ids') /\
    filter isContent (docNodes doc) = filter isContent nodes.
Proof.
  destruct (run_htmlToRicos_total input ids) as (doc & H).
  destruct (run_htmlToRicos_inv input ids doc H)
    as (nodes & s1 & enhanced & s2 & Ewalk & Eenh & Hdoc).
  exists doc, nodes, s1. split; [exact H|]. split; [exact Ewalk|].
  rewrite Hdoc, cleanedNodes_content.
  exact (enhance_content nodes 0 None [] _ _ _ Eenh).
Qed.

(* ================================================================== *)
(** ** Every node is built to shape *)

Lemma allBuilt_subnodes n :
  allBuilt n = true -> forall m, In m (subnodes n) -> wellBuilt m = true.
Proof.
  assert (H : forall k n, List.length (subnodes n) <= k ->
                          allBuilt n = true ->
                          forall m, In m (subnodes n) -> wellBuilt m = true).
  { induction k as [|k IH]; intros n0 Hk Hn m Hm.
    - destruct n0; cbn in Hk; lia.
    - assert (Hsub : forall ns,
                 List.length (flat_map subnodes ns) <= k ->
                 forallb allBuilt ns = true ->
                 In m (flat_map subnodes ns) -> wellBuilt m = true).
      { intros ns Hlen Hall Hin. apply in_flat_map in Hin as (c & Hc & Hmc).
        apply (IH c); [|exact (proj1 (forallb_forall _ _) Hall c Hc) | exact Hmc].
        clear - Hlen Hc. induction ns as [|x ns IHns]; [contradiction|].
        cbn [flat_map] in Hlen. rewrite length_app in Hlen.
        destruct Hc as [->|Hc]; [lia|]. apply IHns; [lia | exact Hc]. }
      destruct n0; cbn [subnodes allBuilt List.length] in Hk, Hn, Hm;
        apply andb_true_iff in Hn as [Hw Hch];
        (destruct Hm as [<-|Hm]; [exact Hw|]);
        first [contradiction | apply (Hsub _ (le_S_n _ _ Hk) Hch Hm)]. }
  intros Hn. apply (H (List.length (subnodes n)) n (Nat.le_refl _) Hn).
Qed.

Lemma textDecorations_ok parentStyle :
  match textDecorations parentStyle with
  | Some ds => decorationsOk ds
  | None => true
  end = true.
Proof.
  unfold textDecorations. destruct parentStyle as [st|]; [|reflexivity].
  destruct (hasColor st || hasFontWeight st); [|reflexivity].
  destruct (color st) as [c|]; [destruct (Js.truthy c)|];
    (destruct (fontWeight st) as [w|];
     [destruct (Js.numTruthy w && Js.geNum w 600) eqn:E|]);
    cbn [app]; try reflexivity;
    apply andb_true_iff in E as [_ E];
    unfold decorationsOk, styleDecorations; cbn [forallb List.length];
    rewrite E; reflexivity.
Qed.

Lemma allBuilt_styled_text txt parentStyle :
  allBuilt (TEXT "" {| text := txt; decorations := textDecorations parentStyle |}) = true.
Proof.
  cbn [allBuilt wellBuilt decorations]. rewrite textDecorations_ok. reflexivity.
Qed.

Lemma heading_level_ok tagName :
  oneOf tagName headingTags = true ->
  levelInRange (Js.minNum (Js.parseInt (Js.charAt tagName 1)) 6) = true.
Proof.
  unfold oneOf, headingTags. cbn [existsb]. intros H.
  repeat (apply orb_true_iff in H as [H|H]; [apply String.eqb_eq in H; subst; reflexivity|]).
  discriminate H.
Qed.

Lemma allBuilt_headingNode tagName element id nodes :
  oneOf tagName headingTags = true ->
  forallb allBuilt nodes = true ->
  allBuilt (headingNode tagName element id nodes) = true.
Proof.
  intros Ht Hn. unfold headingNode. cbn [allBuilt wellBuilt level].
  rewrite (heading_level_ok tagName Ht), Hn. reflexivity.
Qed.

Ltac built_solve :=
  cbn [fst snd]; cbv beta in *;
  repeat rewrite forallb_app;
  cbn [forallb app];
  rewrite ?allBuilt_styled_text;
  rewrite ?allBuilt_headingNode by assumption;
  cbn [allBuilt wellBuilt forallb andb];
  repeat match goal with
         | H : forallb allBuilt _ = true |- _ => rewrite H
         | H : allBuilt _ = true |- _ => rewrite H
         end;
  reflexivity.

Lemma converters_allBuilt fuel :
  (forall e, post (fun l => forallb allBuilt l = true) (processTextAndInlineElements fuel e)) /\
  (forall e, post (fun l => forallb allBuilt l = true) (handleBlockElement fuel e)) /\
  (forall e, post (fun l => forallb allBuilt l = true) (convertNodeToRicos fuel e)) /\
  (forall e, post (fun n => allBuilt n = true) (handleTable fuel e)).
Proof.
  induction fuel as [|fuel (IHp & IHb & IHc & IHt)].
  - repeat split; intros e; apply post_outOfFuel.
  - repeat split; intros e.
    + cbn [processTextAndInlineElements].
      apply (post_forEach (fun l => forallb allBuilt l = true)); [|reflexivity].
      intros st child _ Hst.
      destruct child; repeat conv_step IHp IHb IHc IHt; built_solve.
    + cbn [handleBlockElement].
      repeat conv_step IHp IHb IHc IHt; try built_solve.
      all: eapply (post_bind (fun l => forallb allBuilt l = true));
        [ apply post_forEach; [|reflexivity];
          intros st child _ Hst;
          destruct child; repeat conv_step IHp IHb IHc IHt; built_solve
        | intros; repeat conv_step IHp IHb IHc IHt; built_solve ].
    + cbn [convertNodeToRicos].
      apply (post_bind (fun st => forallb allBuilt (fst st) = true)).
      * apply post_forEach; [|reflexivity].
        intros [nodes flag] child _ Hst. cbn [fst snd] in *.
        destruct child; repeat conv_step IHp IHb IHc IHt; built_solve.
      * intros [nodes flag] Hst. cbn [fst] in *.
        apply post_forEach; [|exact Hst].
        intros st child _ Hst'.
        destruct child; repeat conv_step IHp IHb IHc IHt; built_solve.
    + cbn [handleTable].
      destruct (querySelectorAll e ["tr"]) as [|r rows] eqn:Erows.
      * eapply post_weaken; [apply post_createSpacingParagraph|].
        intros n [id ->]. reflexivity.
      * rewrite <- Erows.
        apply (post_bind (fun st => forallb allBuilt (fst (fst st)) = true /\
                                    forallb isRow (fst (fst st)) = true)).
        -- apply post_forEach; [|split; reflexivity].
           intros [[tableRows heights] maxCols] row _ [Hst Hrows]. cbn [fst snd] in *.
           destruct (querySelectorAll (snd row) ["th"; "td"]) as [|c cells] eqn:Ecells.
           ++ apply post_ret. split; assumption.
           ++ rewrite <- Ecells.
              apply (post_bind (fun l => (forallb allBuilt l = true /\
                                          forallb isCell l = true) /\
                                         List.length l = List.length (c :: cells))).
              ** intros s a s' E. split.
                 --- revert s a s' E. apply post_forEach; [|split; reflexivity].
                     intros rowCells cell _ [Hcells Hkind].
                     repeat conv_step IHp IHb IHc IHt.
                     cbv beta in *.
                     rewrite !forallb_app, Hcells, Hkind. cbn [forallb andb isCell].
                     split; [|reflexivity]. rewrite andb_true_r.
                     match goal with
                     | |- context [match ?l with _ => _ end] => destruct l eqn:El
                     end.
                     +++ destruct ((tagOf (snd cell) =? "th")%string
                                   || (tagOf (fst row) =? "thead")%string); reflexivity.
                     +++ cbn [allBuilt wellBuilt isCellBody forallb andb].
                         rewrite andb_true_r. assumption.
                 --- rewrite <- Ecells.
                     refine (forEach_length _ _ _ [] s a s' E).
                     intros st x. repeat post_step.
                     apply post_bind_any; intros content. repeat post_step.
                     rewrite length_app. cbn. lia.
              ** intros rowCells [[Hcells Hkind] Hlen]. repeat conv_step IHp IHb IHc IHt.
                 cbv beta. cbn [fst snd].
                 rewrite !forallb_app, Hst, Hrows. cbn [forallb andb isRow].
                 split; [|reflexivity].
                 cbn [allBuilt wellBuilt]. destruct rowCells as [|x l]; [discriminate Hlen|].
                 rewrite Hkind, Hcells. reflexivity.
        -- intros [[tableRows heights] maxCols] [Hst Hrows]. cbn [fst snd] in *.
           repeat conv_step IHp IHb IHc IHt.
           cbn [allBuilt wellBuilt]. rewrite Hst, Hrows. reflexivity.
Qed.

Lemma enhance_allBuilt nodes :
  forallb allBuilt nodes = true ->
  forall i previousType enhancedNodes,
    forallb allBuilt enhancedNodes = true ->
    post (fun out => forallb allBuilt out = true)
         (enhance i nodes previousType enhancedNodes).
Proof.
  induction nodes as [|node rest IH]; intros Hn i prev acc Hacc.
  - apply post_ret. exact Hacc.
  - cbn [forallb] in Hn. apply andb_true_iff in Hn as [Hnode Hrest].
    specialize (IH Hrest). cbn [enhance].
    repeat post_step; apply IH; built_solve.
Qed.

(** Every node of the document, at any depth, is built to shape. *)
Lemma document_wellBuilt input (ids : IdSource) :
  exists doc,
    run (htmlToRicos input) ids = Some doc /\
    forall n, In n (flat_map subnodes (docNodes doc)) -> wellBuilt n = true.
Proof.
  destruct (run_htmlToRicos_total input ids) as (doc & H).
  exists doc. split; [exact H|].
  destruct (run_htmlToRicos_inv input ids doc H)
    as (nodes & s1 & enhanced & s2 & Ewalk & Eenh & ->).
  assert (Hall : forallb allBuilt (cleanedNodes enhanced) = true).
  { unfold cleanedNodes. apply forallb_firstn, forallb_skipn.
    refine (enhance_allBuilt nodes _ 0 None [] eq_refl _ _ _ Eenh).
    exact (proj1 (proj2 (proj2 (converters_allBuilt _))) _ _ _ _ Ewalk). }
  intros n Hn. apply in_flat_map in Hn as (top & Htop & Hn).
  apply (allBuilt_subnodes top); [|exact Hn].
  exact (proj1 (forallb_forall _ _) Hall top Htop).
Qed.

(** X4.  A Text node never carries an identifier: wherever it sits in the
    document its [id] is the empty string. *)
Theorem X4_text_nodes_have_empty_id input (ids : IdSource) :
  exists doc,
    run (htmlToRicos input) ids = Some doc /\
    forall id td, In (TEXT id td) (allNodes doc) -> id = "".
Proof.
  destruct (document_wellBuilt input ids) as (doc & H & Hall).
  exists doc. split; [exact H|].
  intros id td Hin. specialize (Hall _ Hin). cbn [wellBuilt] in Hall.
  apply andb_true_iff in Hall as [Hid _]. apply String.eqb_eq. exact Hid.
Qed.

(** X5.  The level of every Heading node of the document is an integer
    between 1 and 6. *)
Theorem X5_heading_levels_in_range input (ids : IdSource) :
  exists doc,
    run (htmlToRicos input) ids = Some doc /\
    forall id ns hd,
      In (HEADING id ns hd) (allNodes doc) ->
      exists z, level hd = Js.Int z /\ (1 <= z <= 6)%Z.
Proof.
  destruct (document_wellBuilt input ids) as (doc & H & Hall).
  exists doc. split; [exact H|].
  intros id ns hd Hin. specialize (Hall _ Hin). cbn [wellBuilt] in Hall.
  destruct (level hd) as [|z| | |]; try discriminate Hall.
  exists z. split; [reflexivity|].
  cbn [levelInRange] in Hall. apply andb_true_iff in Hall as [H1 H2].
  apply Z.leb_le in H1. apply Z.leb_le in H2. lia.
Qed.

Lemma styleDecorations_inv ds :
  styleDecorations ds = true ->
  List.length ds <= 2 /\
  (forall u t r, ~ In (LINK u t r) ds) /\
  (forall w, In (BOLD w) ds -> atLeast 600 w).
Proof.
  unfold styleDecorations. intros H. apply andb_true_iff in H as [Hall Hlen].
  apply Nat.leb_le in Hlen. rewrite forallb_forall in Hall.
  split; [exact Hlen|]. split.
  - intros u t r Hin. specialize (Hall _ Hin). discriminate Hall.
  - intros w Hin. specialize (Hall _ Hin). cbv beta iota in Hall.
    destruct w as [|z| | |]; try discriminate Hall.
    + right. exists z. split; [reflexivity|]. apply Z.leb_le. exact Hall.
    + left. reflexivity.
Qed.

Lemma decorationsOk_inv ds :
  decorationsOk ds = true ->
  (exists u t, ds = [LINK u t true; UNDERLINE]) \/ styleDecorations ds = true.
Proof.
  unfold decorationsOk. intros H.
  repeat (match type of H with
          | context [match ?x with _ => _ end] => is_var x; destruct x
          end; cbv beta iota in H);
    try (right; exact H).
  left. eexists _, _. reflexivity.
Qed.

(** X6.  The decoration list of every Text node of the document has at most
    two entries; a Bold in it has a weight of at least 600, an integer or,
    for a weight written with too many digits, [Infinity], never [NaN]; a
    Link in it has [noreferrer] set, comes first and is followed by
    Underline and nothing else. *)
Theorem X6_decoration_lists input (ids : IdSource) :
  exists doc,
    run (htmlToRicos input) ids = Some doc /\
    forall id td ds,
      In (TEXT id td) (allNodes doc) ->
      decorations td = Some ds ->
      List.length ds <= 2 /\
      (forall w, In (BOLD w) ds -> atLeast 600 w) /\
      (forall u t r, In (LINK u t r) ds -> ds = [LINK u t true; UNDERLINE]).
Proof.
  destruct (document_wellBuilt input ids) as (doc & H & Hall).
  exists doc. split; [exact H|].
  intros id td ds Hin Hds. specialize (Hall _ Hin). cbn [wellBuilt] in Hall.
  apply andb_true_iff in Hall as [_ Hok]. rewrite Hds in Hok.
  destruct (decorationsOk_inv ds Hok) as [(u & t & ->)|Hstyle].
  - split; [cbn; lia|]. split.
    + intros w [E|[E|[]]]; discriminate E.
    + intros u' t' r' [E|[E|[]]]; [|discriminate E].
      inversion E; subst. reflexivity.
  - destruct (styleDecorations_inv ds Hstyle) as (Hlen & Hnolink & Hbold).
    split; [exact Hlen|]. split; [exact Hbold|].
    intros u t r Hl. destruct (Hnolink u t r Hl).
Qed.

(** X7.  Tables are well nested in the document: the children of a Table
    are rows, a row has at least one child and its children are cells, and a
    cell has exactly one child, a centre-aligned Paragraph that is not
    empty. *)
Theorem X7_table_structure input (ids : IdSource) :
  exists doc,
    run (htmlToRicos input) ids = Some doc /\
    (forall id rows td,
        In (TABLE id rows td) (allNodes doc) ->
        forall r, In r rows -> isRow r = true) /\
    (forall id cells,
        In (TABLE_ROW id cells) (allNodes doc) ->
        cells <> [] /\ forall c, In c cells -> isCell c = true) /\
    (forall id ns cd,
        In (TABLE_CELL id ns cd) (allNodes doc) ->
        exists pid first others,
          ns = [PARAGRAPH pid (first :: others)
                          (Some {| textAlignment := CENTER; indentation := None |})]).
Proof.
  destruct (document_wellBuilt input ids) as (doc & H & Hall).
  exists doc. split; [exact H|]. split; [|split].
  - intros id rows td Hin r Hr. specialize (Hall _ Hin). cbn [wellBuilt] in Hall.
    exact (proj1 (forallb_forall _ _) Hall r Hr).
  - intros id cells Hin. specialize (Hall _ Hin). cbn [wellBuilt] in Hall.
    destruct cells as [|x l]; [discriminate Hall|].
    split; [discriminate|].
    intros c Hc. exact (proj1 (forallb_forall _ _) Hall c Hc).
  - intros id ns cd Hin. specialize (Hall _ Hin). cbn [wellBuilt] in Hall.
    unfold isCellBody in Hall.
    repeat (match type of Hall with
            | context [match ?x with _ => _ end] => is_var x; destruct x
            end; cbv beta iota in Hall);
      try discriminate Hall.
    eexists _, _, _. reflexivity.
Qed.

(* ================================================================== *)
(** ** Tables against their source *)

(** A loop that appends to a view of its state what each element emits. *)
Lemma forEach_appends {A S T : Type} (view : S -> list T) (emit : A -> list T)
      (l : list A) (body : S -> A -> M S) :
  (forall st x, In x l -> post (fun st' => view st' = view st ++ emit x) (body st x)) ->
  forall st, post (fun st' => view st' = view st ++ flat_map emit l) (forEach l st body).
Proof.
  induction l as [|x l IH]; intros Hbody st; cbn [forEach flat_map].
  - apply post_ret. rewrite app_nil_r. reflexivity.
  - eapply post_bind; [apply Hbody; left; reflexivity|].
    cbv beta. intros st1 H1.
    eapply post_weaken; [apply IH; intros st0 y Hy; apply Hbody; right; exact Hy|].
    cbv beta. intros st2 H2. rewrite H2, H1, app_assoc. reflexivity.
Qed.

Lemma flat_map_single {A B : Type} (f : A -> B) l :
  flat_map (fun x => [f x]) l = map f l.
Proof. induction l as [|x l IH]; [reflexivity|]. cbn. rewrite IH. reflexivity. Qed.

Lemma handleTable_colspans fuel element :
  post (fun n => forall id rows td,
            n = TABLE id rows td -> map rowColspans rows = sourceColspans element)
       (handleTable fuel element).
Proof.
  destruct fuel as [|fuel]; [apply post_outOfFuel|].
  cbn [handleTable]. unfold sourceColspans.
  destruct (querySelectorAll element ["tr"]) as [|r rows] eqn:E.
  - eapply post_weaken; [apply post_createSpacingParagraph|].
    intros n [x ->] id rs td H. discriminate H.
  - apply (post_bind (fun st =>
             map rowColspans (fst (fst st))
             = [] ++ flat_map (fun parentAndRow =>
                     match querySelectorAll (snd parentAndRow) ["th"; "td"] with
                     | [] => []
                     | cells => [map (fun pc => colspanOf (snd pc)) cells]
                     end) (r :: rows))).
    + apply (forEach_appends (fun st => map rowColspans (fst (fst st)))).
      intros [[tableRows heights] maxCols] parentAndRow _. cbn [fst snd].
      destruct (querySelectorAll (snd parentAndRow) ["th"; "td"]) as [|c cells] eqn:Ec.
      * apply post_ret. rewrite app_nil_r. reflexivity.
      * rewrite <- Ec.
        apply (post_bind (fun rowCells =>
                 map cellDataOf rowCells
                 = [] ++ flat_map (fun pc => [colspanOf (snd pc)])
                                  (querySelectorAll (snd parentAndRow) ["th"; "td"]))).
        -- apply (forEach_appends (fun rowCells => map cellDataOf rowCells)).
           intros rowCells cell _. post_step.
           apply post_bind_any; intros content. repeat post_step.
           rewrite map_app. reflexivity.
        -- intros rowCells Hcells. repeat post_step. cbn [fst snd].
           rewrite map_app. cbn [map rowColspans].
           rewrite Hcells, flat_map_single. reflexivity.
    + intros [[tableRows heights] maxCols] Hst. cbn [fst snd] in *.
      repeat post_step. intros id rs td H. inversion H; subst. exact Hst.
Qed.

(** X8.  For a table with at least one [tr] below it and fuel above twice
    its depth, [handleTable] returns a Table whose rows stand for the [tr]
    descendants that have at least one cell, in document order, rows
    without cells being skipped; a row has one cell per [th] or [td]
    descendant, in document order; a cell carries a colspan exactly when the
    source attribute is present and not empty, and it is [parseInt] of the
    attribute. *)
Theorem X8_table_rows_follow_source fuel element (ids : IdSource) :
  querySelectorAll element ["tr"] <> [] ->
  2 * depth element < fuel ->
  exists id rows td ids',
    handleTable fuel element ids = Some (TABLE id rows td, ids') /\
    map rowColspans rows = sourceColspans element.
Proof.
  intros Hrows Hfuel.
  destruct (proj2 (proj2 (proj2 (converters_total fuel))) element
                  ltac:(lia) ids) as (n & ids' & E).
  destruct (handleTable_layout fuel element Hrows ids n ids' E) as (id & rows & Hn).
  subst n. eexists id, rows, _, ids'. split; [exact E|].
  exact (handleTable_colspans fuel element ids _ ids' E id rows _ eq_refl).
Qed.

Lemma X8_witness :
  exists id rows td ids',
    handleTable 9 spanTable (fun _ => "id") = Some (TABLE id rows td, ids') /\
    map rowColspans rows = sourceColspans spanTable.
Proof.
  apply (X8_table_rows_follow_source 9 spanTable (fun _ => "id")).
  - vm_compute. discriminate.
  - vm_compute. lia.
Defined.

(* ================================================================== *)
(** ** Text children of the inline processor *)

(** X9.  For an element whose children are all text nodes the inline
    processor draws no identifier and returns one Text leaf per child that
    is not blank, in order, each holding the child's text untrimmed and the
    decorations derived from the style of the element. *)
Theorem X9_inline_text_children fuel tag attrs texts (ids : IdSource) :
  processTextAndInlineElements (S fuel) (Element tag attrs (map TextNode texts)) ids
  = Some (flat_map (textLeaves (Element tag attrs (map TextNode texts))) texts, ids).
Proof.
  cbn [processTextAndInlineElements childNodes]. unfold textLeaves.
  generalize (textDecorations (processNodeStyle (Element tag attrs (map TextNode texts))))
    as d.
  intros d.
  match goal with
  | |- forEach _ [] ?body _ = Some (flat_map ?leaves _, _) =>
      assert (H : forall acc s,
                 forEach (map TextNode texts) acc body s
                 = Some (acc ++ flat_map leaves texts, s))
  end.
  { induction texts as [|t texts IH]; intros acc s; cbn [map forEach flat_map].
    - rewrite app_nil_r. reflexivity.
    - unfold bind.
      destruct (Js.truthy t && Js.truthy (Js.trim t)); cbn [ret];
        rewrite IH; [rewrite <- app_assoc|]; reflexivity. }
  apply H.
Qed.

(* ================================================================== *)
(** ** A table without rows *)

Lemma handleTable_no_rows fuel element (ids : IdSource) :
  querySelectorAll element ["tr"] = [] ->
  handleTable (S fuel) element ids = Some (spacing (ids 0), fun n => ids (S n)).
Proof. intros H. cbn [handleTable]. rewrite H. reflexivity. Qed.

(** X10.  A table that has no [tr] below it leaves no trace: alone in the
    body it converts to the document without nodes, the spacing paragraph
    that stands for it and the one pushed after it being trimmed. *)
Theorem X10_table_without_rows_disappears t attrs cs (ids : IdSource) :
  Js.toLowerCase t = "table" ->
  querySelectorAll (Element t attrs cs) ["tr"] = [] ->
  run (htmlToRicos (body [Element t attrs cs])) ids = Some {| docNodes := [] |}.
Proof.
  intros Ht Hrows. unfold run, htmlToRicos, fuelFor, body.
  cbn [depth fold_right]. rewrite Nat.max_0_r.
  replace (2 * S (S (fold_right (fun c m => Nat.max (depth c) m) 0 cs)) + 1)
    with (S (S (2 * S (fold_right (fun c m => Nat.max (depth c) m) 0 cs) + 1))) by lia.
  cbn [convertNodeToRicos childNodes forEach]. cbn [tagOf]. rewrite Ht.
  unfold bind at 1 2 3.
  change ((("table" =? "p")%string)) with false.
  change (oneOf "table" headingTags) with false.
  change (("table" =? "div")%string) with false.
  change (("table" =? "table")%string) with true.
  cbv iota. unfold bind at 1.
  rewrite handleTable_no_rows by exact Hrows.
  unfold isSectionDiv. cbn [tagOf]. rewrite Ht.
  change (("table" =? "div")%string) with false. cbn [andb].
  reflexivity.
Qed.

Lemma X10_witness :
  run (htmlToRicos (body [Element "TABLE" [] [Element "TBODY" [] []]])) (fun _ => "id")
  = Some {| docNodes := [] |}.
Proof.
  apply (X10_table_without_rows_disappears "TABLE" [] [Element "TBODY" [] []]);
    reflexivity.
Defined.

(* ================================================================== *)
(** ** The summary of the test script *)

Lemma getProperty_set_same o key value :
  getProperty (setProperty o key value) key = Some value.
Proof.
  induction o as [|[k v] o IH]; cbn [setProperty getProperty].
  - rewrite String.eqb_refl. reflexivity.
  - destruct (k =? key)%string eqn:E; cbn [getProperty]; rewrite E; [reflexivity | exact IH].
Qed.

Lemma getProperty_set_other o key value other :
  other <> key ->
  getProperty (setProperty o key value) other = getProperty o other.
Proof.
  intros Hne. induction o as [|[k v] o IH]; cbn [setProperty getProperty].
  - destruct (key =? other)%string eqn:E; [|reflexivity].
    apply String.eqb_eq in E. congruence.
  - destruct (k =? key)%string eqn:E; cbn [getProperty].
    + apply String.eqb_eq in E. subst k.
      destruct (key =? other)%string eqn:E'; [|reflexivity].
      apply String.eqb_eq in E'. congruence.
    + rewrite IH. reflexivity.
Qed.

Lemma sumCounts_increment o key :
  sumCounts (setProperty o key (propertyOrZero o key + 1)) = S (sumCounts o).
Proof.
  unfold propertyOrZero.
  induction o as [|[k v] o IH]; cbn [setProperty getProperty sumCounts fold_right snd].
  - reflexivity.
  - destruct (k =? key)%string eqn:E; cbn [sumCounts fold_right snd].
    + lia.
    + fold (sumCounts (setProperty o key
                         (match getProperty o key with Some v0 => v0 | None => 0 end + 1))).
      rewrite IH. fold (sumCounts o). lia.
Qed.

Lemma countNodeTypes_spec nodes :
  forall o,
    (forall t, propertyOrZero (countNodeTypes nodes o) t
               = propertyOrZero o t + occurrences nodes t) /\
    (forall t, getProperty (countNodeTypes nodes o) t = None ->
               getProperty o t = None /\ occurrences nodes t = 0) /\
    sumCounts (countNodeTypes nodes o) = sumCounts o + List.length nodes.
Proof.
  unfold countNodeTypes, occurrences.
  induction nodes as [|n nodes IH]; intros o; cbn [fold_left filter List.length].
  - repeat split; intros; try lia. assumption.
  - destruct (IH (setProperty o (typeOf n) (propertyOrZero o (typeOf n) + 1)))
      as (Hc & Hn & Hs).
    split; [|split].
    + intros t. rewrite Hc. unfold propertyOrZero at 1.
      destruct (typeOf n =? t)%string eqn:E.
      * apply String.eqb_eq in E. subst t.
        rewrite getProperty_set_same. cbn [List.length]. lia.
      * apply String.eqb_neq in E.
        rewrite getProperty_set_other by congruence.
        fold (propertyOrZero o t). reflexivity.
    + intros t Ht. destruct (Hn t Ht) as [Hset Hocc].
      destruct (typeOf n =? t)%string eqn:E.
      * apply String.eqb_eq in E. subst t.
        rewrite getProperty_set_same in Hset. discriminate Hset.
      * apply String.eqb_neq in E.
        rewrite getProperty_set_other in Hset by congruence.
        split; assumption.
    + rewrite Hs, sumCounts_increment. lia.
Qed.

(** X11.  The summary of the test script holds, for every node type, the
    number of top-level nodes of that type, has no entry for a type that
    does not occur, and its counts add up to the number of nodes. *)
Theorem X11_summary_counts_node_types nodes :
  (forall t, getProperty (nodeTypesSummary nodes) t
             = if occurrences nodes t =? 0 then None else Some (occurrences nodes t)) /\
  sumCounts (nodeTypesSummary nodes) = List.length nodes.
Proof.
  unfold nodeTypesSummary.
  destruct (countNodeTypes_spec nodes []) as (Hc & Hn & Hs).
  split; [|exact Hs].
  intros t. specialize (Hc t). specialize (Hn t).
  unfold propertyOrZero in Hc. cbn [getProperty] in Hc.
  destruct (getProperty (countNodeTypes nodes []) t) as [v|] eqn:G.
  - cbn [Nat.add] in Hc. subst v.
    destruct (occurrences nodes t) eqn:E; [|reflexivity].
    (* an entry is created with count 1 and only grows *)
    exfalso.
    assert (H : forall l o, getProperty (countNodeTypes l o) t = Some 0 ->
                            getProperty o t = Some 0).
    { clear. induction l as [|n l IH]; intros o H; [exact H|].
      cbn [countNodeTypes fold_left] in H. apply IH in H.
      destruct (typeOf n =? t)%string eqn:E.
      - apply String.eqb_eq in E. subst t.
        rewrite getProperty_set_same in H. inversion H. lia.
      - apply String.eqb_neq in E.
        rewrite getProperty_set_other in H by congruence. exact H. }
    specialize (H nodes [] G). discriminate H.
  - destruct (Hn eq_refl) as [_ ->]. reflexivity.
Qed.

(* ================================================================== *)
(** ** Numbers and colours read from a style *)

Lemma search_inv {A : Type} (m : string -> option A) s r :
  Js.search m s = Some r -> exists s', m s' = Some r.
Proof.
  induction s as [|c s IH]; cbn [Js.search].
  - destruct (m "") eqn:E; [|discriminate]. intros H. exists "". congruence.
  - destruct (m (String c s)) eqn:E.
    + intros H. exists (String c s). congruence.
    + exact IH.
Qed.

Lemma span_allChars p s a b : Js.span p s = (a, b) -> allChars p a = true.
Proof.
  revert a b. induction s as [|c s IH]; intros a b; cbn [Js.span].
  - intros H. inversion H. reflexivity.
  - destruct (p c) eqn:E.
    + destruct (Js.span p s) as [a' b'] eqn:Es. intros H. inversion H; subst.
      cbn [allChars]. rewrite E. eapply IH. reflexivity.
    + intros H. inversion H. reflexivity.
Qed.

Lemma span_of_allChars p s : allChars p s = true -> Js.span p s = (s, "").
Proof.
  induction s as [|c s IH]; cbn [allChars Js.span]; [reflexivity|].
  intros H. apply andb_true_iff in H as [Hc Hs]. rewrite Hc, (IH Hs). reflexivity.
Qed.

Lemma digitValue_nonneg c : (0 <= Js.digitValue c)%Z.
Proof. unfold Js.digitValue. destruct (Js.isDigit c); [|destruct (97 <=? _)]; lia. Qed.

Lemma digitsValue_nonneg s : forall acc, (0 <= acc)%Z -> (0 <= Js.digitsValue 10 acc s)%Z.
Proof.
  induction s as [|c s IH]; intros acc Hacc; cbn [Js.digitsValue]; [exact Hacc|].
  apply IH. pose proof (digitValue_nonneg c). lia.
Qed.

Lemma nearestDouble_atLeast m :
  (0 <= m)%Z ->
  atLeast 0 (match Js.nearestDouble m with
             | Some v => Js.Int v
             | None => Js.Infinity
             end).
Proof.
  intros Hm. unfold Js.nearestDouble.
  destruct (m <? 2 ^ 53)%Z; [right; exists m; split; [reflexivity | exact Hm]|].
  cbv zeta.
  set (shift := (Z.log2 m - 52)%Z). set (q := Z.shiftr m shift).
  assert (Hq : (0 <= q)%Z) by (apply Z.shiftr_nonneg; exact Hm).
  match goal with
  | |- context [if ?c then (q + 1)%Z else q] =>
      assert (Hq' : (0 <= if c then q + 1 else q)%Z) by (destruct c; lia);
      set (q' := if c then (q + 1)%Z else q) in *
  end.
  destruct (Z.shiftl q' shift <? 2 ^ 1024)%Z; [|left; reflexivity].
  right. eexists. split; [reflexivity|].
  apply Z.shiftl_nonneg. exact Hq'.
Qed.

Ltac natural_solve Hall :=
  cbn [Js.trimStart];
  repeat match goal with
         | |- context [Js.isWhiteSpace ?c] =>
             let v := eval vm_compute in (Js.isWhiteSpace c) in
             change (Js.isWhiteSpace c) with v
         end;
  cbv beta iota zeta;
  change ((10 =? 16)%Z) with false; cbv beta iota;
  rewrite (span_of_allChars _ _ Hall); cbv beta iota;
  apply nearestDouble_atLeast; apply digitsValue_nonneg; lia.

(** [parseInt] on what [\d+] captures: never [NaN], never negative. *)
Lemma parseInt_digits ds :
  ds <> "" -> allChars Js.isDigit ds = true -> atLeast 0 (Js.parseInt ds).
Proof.
  destruct ds as [|c r]; [congruence|]. intros _ Hall.
  pose proof Hall as H.
  cbn [allChars] in H. apply andb_true_iff in H as [Hc Hr].
  unfold Js.parseInt.
  destruct c as [b0 b1 b2 b3 b4 b5 b6 b7];
    destruct b0, b1, b2, b3, b4, b5, b6, b7; try discriminate Hc.
  all: try solve [natural_solve Hall].
  destruct r as [|c2 r2]; [natural_solve Hall|].
  cbn [allChars] in Hr. apply andb_true_iff in Hr as [Hc2 Hr2].
  destruct c2 as [b0 b1 b2 b3 b4 b5 b6 b7];
    destruct b0, b1, b2, b3, b4, b5, b6, b7; try discriminate Hc2;
    natural_solve Hall.
Qed.

Lemma fontSizeMatch_inv style ds :
  fontSizeMatch style = Some ds -> ds <> "" /\ allChars Js.isDigit ds = true.
Proof.
  unfold fontSizeMatch. intros H. apply search_inv in H as (s & H).
  destruct (Js.property "font-size" s) as [v|]; [|discriminate H].
  destruct (Js.span Js.isDigit v) as [a b] eqn:E.
  destruct a as [|c a]; [discriminate H|]. inversion H; subst ds.
  split; [discriminate | exact (span_allChars _ _ _ _ E)].
Qed.

Lemma fontWeightMatch_inv style w :
  fontWeightMatch style = Some w ->
  w = "bold" \/ w = "normal" \/ (w <> "" /\ allChars Js.isDigit w = true).
Proof.
  unfold fontWeightMatch. intros H. apply search_inv in H as (s & H).
  destruct (Js.property "font-weight" s) as [v|]; [|discriminate H].
  destruct (Js.span Js.isDigit v) as [a b] eqn:E.
  destruct a as [|c a].
  - destruct (prefix "bold" v); [inversion H; left; reflexivity|].
    destruct (prefix "normal" v); [inversion H; right; left; reflexivity|].
    discriminate H.
  - inversion H; subst w. right. right.
    split; [discriminate | exact (span_allChars _ _ _ _ E)].
Qed.

Lemma colorValue_inv v c : colorValue v = Some c -> c <> "".
Proof.
  unfold colorValue. intros H. cbv zeta in H.
  repeat match goal with
         | E : match ?x with _ => _ end = Some _ |- _ =>
             destruct x eqn:?; try discriminate E; cbv beta iota zeta in E
         end.
  all: repeat match goal with
              | E : Some _ = Some _ |- _ => inversion E; clear E; subst
              end.
  all: cbn [append]; discriminate.
Qed.

Lemma colorMatch_inv style c : colorMatch style = Some c -> c <> "".
Proof.
  unfold colorMatch. intros H. apply search_inv in H as (s & H).
  destruct (Js.property "color" s) as [v|]; [|discriminate H].
  exact (colorValue_inv v c H).
Qed.

(** X12.  What [processNodeStyle] reads from a style attribute is never
    [NaN] and never negative: a font size and a font weight are integers
    from 0 on or, when the digits written are beyond the doubles,
    [Infinity]; a colour is never the empty string. *)
Theorem X12_style_values_are_defined element st :
  processNodeStyle element = Some st ->
  (forall n, fontSize st = Some n -> atLeast 0 n) /\
  (forall w, fontWeight st = Some w -> atLeast 0 w) /\
  (forall c, color st = Some c -> c <> "").
Proof.
  unfold processNodeStyle.
  destruct (getAttribute element "style") as [style|]; [|discriminate].
  destruct (negb (Js.truthy style)); [discriminate|].
  intros H. inversion H; subst st; clear H. cbn [fontSize fontWeight color].
  split; [|split].
  - intros n Hn. destruct (fontSizeMatch style) as [ds|] eqn:E; [|discriminate Hn].
    cbn in Hn. inversion Hn; subst n.
    destruct (fontSizeMatch_inv style ds E) as [H1 H2].
    exact (parseInt_digits ds H1 H2).
  - intros w Hw. destruct (fontWeightMatch style) as [m|] eqn:E; [|discriminate Hw].
    destruct (m =? "bold")%string eqn:Eb.
    { inversion Hw. right. exists 700%Z. split; [reflexivity | lia]. }
    destruct (m =? "normal")%string eqn:En.
    { inversion Hw. right. exists 400%Z. split; [reflexivity | lia]. }
    inversion Hw; subst w.
    destruct (fontWeightMatch_inv style m E) as [->|[->|[H1 H2]]];
      [discriminate Eb | discriminate En | exact (parseInt_digits m H1 H2)].
  - intros c Hc. exact (colorMatch_inv style c Hc).
Qed.

Lemma X12_witness :
  (forall n, Some (Js.Int 12) = Some n -> atLeast 0 n) /\
  (forall w, Some (Js.Int 600) = Some w -> atLeast 0 w) /\
  (forall c, Some "red" = Some c -> c <> "").
Proof.
  apply (X12_style_values_are_defined styledParagraph
           {| margin := false; padding := false; styleTextAlignment := None;
              color := Some "red"; fontSize := Some (Js.Int 12);
              fontWeight := Some (Js.Int 600) |}).
  reflexivity.
Defined.

(* ================================================================== *)
(** ** Normalizing twice *)

Lemma htmlToRicos_normalize input (ids : IdSource) :
  htmlToRicos input ids
  = (nodes <- convertNodeToRicos (fuelFor input) input ;;
     cleaned <- normalize nodes ;;
     ret {| docNodes := cleaned |}) ids.
Proof.
  unfold htmlToRicos, normalize, bind.
  destruct (convertNodeToRicos (fuelFor input) input ids) as [[nodes s1]|]; [|reflexivity].
  destruct (enhance 0 nodes None [] s1) as [[enhanced s2]|]; reflexivity.
Qed.

Lemma enhance_total i nodes previousType enhancedNodes :
  total (enhance i nodes previousType enhancedNodes).
Proof.
  revert i previousType enhancedNodes.
  induction nodes as [|n rest IH]; intros i p acc; cbn [enhance].
  - apply total_ret.
  - repeat total_step; apply IH.
Qed.

Lemma noAdjacentSpacing_mid pre n rest :
  noAdjacentSpacing (pre ++ n :: rest) = true ->
  endsWithSpacing pre && isSpacing n = false.
Proof.
  induction pre as [|a pre IH]; [reflexivity|].
  destruct pre as [|b pre].
  - cbn [app noAdjacentSpacing]. intros H. apply andb_true_iff in H as [H _].
    apply negb_true_iff in H. exact H.
  - intros H. rewrite endsWithSpacing_cons. apply IH.
    exact (noAdjacentSpacing_tail a _ H).
Qed.

Lemma headingsFramed_mid pre n rest :
  headingsFramed (pre ++ n :: rest) = true -> lastFrames pre n = true.
Proof.
  induction pre as [|a pre IH]; [reflexivity|].
  destruct pre as [|b pre].
  - cbn [app headingsFramed]. intros H. apply andb_true_iff in H as [H _]. exact H.
  - intros H. rewrite lastFrames_cons. apply IH.
    exact (headingsFramed_tail a _ H).
Qed.

Lemma headingsFramed_next pre n next rest :
  headingsFramed (pre ++ n :: next :: rest) = true ->
  isHeading n = true -> isSpacing next = true.
Proof.
  intros H Hn.
  change (pre ++ n :: next :: rest) with (pre ++ [n] ++ next :: rest) in H.
  rewrite app_assoc in H. apply headingsFramed_mid in H.
  unfold lastFrames in H. rewrite rev_app_distr in H. cbn [rev app] in H.
  rewrite Hn in H. apply andb_true_iff in H as [H _]. exact H.
Qed.

Lemma lastFrames_heading pre n :
  lastFrames pre n = true -> isHeading n = true ->
  (0 <? List.length pre) && negb (endsWithSpacing pre) = false.
Proof.
  unfold lastFrames, endsWithSpacing. intros H Hn.
  destruct pre as [|a pre]; [reflexivity|].
  destruct (rev (a :: pre)) as [|x r] eqn:E.
  - cbn [rev] in E. destruct (rev pre); discriminate E.
  - rewrite Hn in H. apply andb_true_iff in H as [_ H]. cbn [implb] in H.
    rewrite H. apply andb_false_r.
Qed.

Lemma previousTypeAfter_spacing pre :
  previousIs (previousTypeAfter pre) "SPACING" = endsWithSpacing pre.
Proof.
  unfold previousTypeAfter, endsWithSpacing.
  destruct (rev pre) as [|n r]; [reflexivity|].
  destruct (isSpacing n); [reflexivity | apply typeOf_not_spacing].
Qed.

Lemma previousTypeAfter_push pre n :
  previousTypeAfter (pre ++ [n])
  = if isSpacing n then Some "SPACING" else Some (typeOf n).
Proof. unfold previousTypeAfter. rewrite rev_app_distr. reflexivity. Qed.

Lemma typeOf_heading n : isHeading n = true -> typeOf n = "HEADING".
Proof. destruct n; try discriminate. reflexivity. Qed.

(** On a sequence without neighbouring spacing paragraphs and with framed
    headings the first loop copies every node and adds at most a spacing
    paragraph behind a final heading. *)
Lemma enhance_normalized rest :
  forall pre,
    noAdjacentSpacing (pre ++ rest) = true ->
    headingsFramed (pre ++ rest) = true ->
    post (fun out => out = pre ++ rest \/
                     (endsWithHeading (pre ++ rest) = true /\
                      exists x, out = (pre ++ rest) ++ [spacing x]))
         (enhance (List.length pre) rest (previousTypeAfter pre) pre).
Proof.
  induction rest as [|node rest IH]; intros pre Hadj Hframed.
  - apply post_ret. left. rewrite app_nil_r. reflexivity.
  - pose proof (noAdjacentSpacing_mid pre node rest Hadj) as H1.
    pose proof (headingsFramed_mid pre node rest Hframed) as H2.
    specialize (IH (pre ++ [node])).
    rewrite <- app_assoc, length_app, Nat.add_1_r, previousTypeAfter_push in IH.
    cbn [app List.length] in IH. specialize (IH Hadj Hframed).
    cbn [enhance]. rewrite previousTypeAfter_spacing.
    rewrite (andb_comm (isSpacing node)), H1, isHeading_typeOf.
    destruct (isHeading node) eqn:Ehead.
    + rewrite (lastFrames_heading pre node H2 Ehead).
      rewrite (heading_not_spacing node Ehead), (typeOf_heading node Ehead) in IH.
      destruct rest as [|next rest].
      * repeat post_step. cbn [enhance]. apply post_ret. right.
        split; [rewrite endsWithHeading_push; exact Ehead|]. exists x. reflexivity.
      * rewrite (headingsFramed_next pre node next rest Hframed Ehead).
        cbn [negb]. repeat post_step. exact IH.
    + destruct (isSpacing node); exact IH.
Qed.

Lemma dropSpacing_fixed l : startsWithSpacing l = false -> dropSpacing l = l.
Proof.
  destruct l as [|n l]; [reflexivity|]. cbn [startsWithSpacing]. intros H.
  rewrite dropSpacing_cons, H. reflexivity.
Qed.

Lemma cleanedNodes_fixed l :
  startsWithSpacing l = false -> endsWithSpacing l = false -> cleanedNodes l = l.
Proof.
  intros Hs He. rewrite cleanedNodes_dropSpacing, (dropSpacing_fixed l Hs).
  rewrite (dropSpacing_fixed (rev l) He). apply rev_involutive.
Qed.

Lemma cleanedNodes_trailing l x :
  startsWithSpacing l = false -> endsWithSpacing l = false -> l <> [] ->
  cleanedNodes (l ++ [spacing x]) = l.
Proof.
  intros Hs He Hl. rewrite cleanedNodes_dropSpacing.
  rewrite (dropSpacing_fixed (l ++ [spacing x])).
  - rewrite rev_app_distr. cbn [rev app]. rewrite dropSpacing_cons.
    cbn [isSpacing spacing plainText text].
    change ((" " =? " ")%string) with true. cbv iota.
    rewrite (dropSpacing_fixed (rev l) He). apply rev_involutive.
  - destruct l as [|n l]; [congruence | exact Hs].
Qed.

Lemma normalize_fixed l (ids : IdSource) :
  normalized l -> run (normalize l) ids = Some l.
Proof.
  intros (Hadj & Hframed & Hs & He). unfold run, normalize, bind.
  destruct (enhance_total 0 l None [] ids) as (out & s' & E). rewrite E.
  pose proof (enhance_normalized l [] Hadj Hframed ids out s' E) as H.
  cbn [app] in H. destruct H as [->|(Hh & x & ->)]; cbn [ret option_map fst].
  - rewrite (cleanedNodes_fixed l Hs He). reflexivity.
  - rewrite (cleanedNodes_trailing l x Hs He); [reflexivity|].
    intros ->. discriminate Hh.
Qed.

Lemma hd_error_startsWithSpacing l :
  (forall n, hd_error l = Some n -> isSpacing n = false) -> startsWithSpacing l = false.
Proof. destruct l as [|n l]; [reflexivity|]. intros H. exact (H n eq_refl). Qed.

Lemma document_normalized input (ids : IdSource) :
  exists doc, run (htmlToRicos input) ids = Some doc /\ normalized (docNodes doc).
Proof.
  destruct (run_htmlToRicos_total input ids) as (doc & H).
  exists doc. split; [exact H|].
  destruct (run_htmlToRicos_inv input ids doc H)
    as (nodes & s1 & enhanced & s2 & Ewalk & Eenh & ->).
  repeat split.
  - unfold cleanedNodes. apply noAdjacentSpacing_firstn, noAdjacentSpacing_skipn.
    refine (enhance_noAdjacentSpacing nodes _ 0 None [] eq_refl _ _ _ _ Eenh).
    + exact (proj1 (proj2 (proj2 (converters_headingsFollowed _))) _ _ _ _ Ewalk).
    + discriminate.
  - unfold cleanedNodes. apply headingsFramed_firstn, headingsFramed_skipn.
    refine (enhance_headingsFramed nodes 0 None [] eq_refl _ _ _ _ _ _ Eenh);
      [reflexivity | discriminate | discriminate].
  - apply hd_error_startsWithSpacing. intros n. apply cleanedNodes_first.
  - change (endsWithSpacing (cleanedNodes enhanced))
      with (startsWithSpacing (rev (cleanedNodes enhanced))).
    apply hd_error_startsWithSpacing. intros n. apply cleanedNodes_last.
Qed.

(** X13.  Normalization is idempotent on documents: running the two loops
    of the normalizer on the nodes of a returned document, with any source
    of identifiers, gives these nodes back unchanged. *)
Theorem X13_normalizing_a_document_changes_nothing input (ids ids2 : IdSource) :
  exists doc,
    run (htmlToRicos input) ids = Some doc /\
    run (normalize (docNodes doc)) ids2 = Some (docNodes doc).
Proof.
  destruct (document_normalized input ids) as (doc & H & Hn).
  exists doc. split; [exact H | apply normalize_fixed; exact Hn].
Qed.

(* ================================================================== *)
(** ** A section div in the block dispatcher *)

Lemma handleBlockElement_section fuel e :
  tagOf e = "div" -> hasSectionClass e = true ->
  post (fun out => exists a b middle c d,
            out = [spacing a; spacing b] ++ middle ++ [spacing c; spacing d])
       (handleBlockElement fuel e).
Proof.
  intros Htag Hsec. destruct fuel as [|fuel]; [apply post_outOfFuel|].
  cbn [handleBlockElement]. rewrite Htag. unfold hasSectionClass in Hsec. rewrite Hsec.
  change (("div" =? "p")%string) with false.
  change (oneOf "div" headingTags) with false.
  change (("div" =? "ul")%string) with false.
  change (("div" =? "ol")%string) with false.
  change (("div" =? "li")%string) with false.
  change (("div" =? "blockquote")%string) with false.
  change (oneOf "div" ["pre"; "code"]) with false.
  change (("div" =? "div")%string) with true.
  cbv iota.
  do 5 post_step.
  apply (post_bind (fun l => exists middle, l = [spacing x; spacing x0] ++ middle)).
  - destruct (existsb _ (children e)).
    + apply post_forEach; [|exists []; reflexivity].
      intros st child _ [middle ->].
      destruct child; repeat first [post_step | apply post_bind_any; intros ?];
        first [ eexists; rewrite <- app_assoc; reflexivity
              | exists middle; reflexivity ].
    + repeat first [post_step | apply post_bind_any; intros ?].
      eexists. reflexivity.
  - intros l [middle ->]. repeat post_step.
    exists x, x0, middle, x1, x2. rewrite <- app_assoc. reflexivity.
Qed.

(** X14.  For a [div] whose class marks it as a section, and fuel above
    twice its depth, the block dispatcher returns a sequence that starts
    with two spacing paragraphs and ends with two spacing paragraphs, whether
    the div holds block children or inline content only. *)
Theorem X14_section_div_is_wrapped_in_spacing fuel e (ids : IdSource) :
  tagOf e = "div" ->
  hasSectionClass e = true ->
  2 * depth e + 2 <= fuel ->
  exists out ids' a b middle c d,
    handleBlockElement fuel e ids = Some (out, ids') /\
    out = [spacing a; spacing b] ++ middle ++ [spacing c; spacing d].
Proof.
  intros Htag Hsec Hfuel.
  destruct (proj1 (proj2 (converters_total fuel)) e Hfuel ids) as (out & ids' & E).
  destruct (handleBlockElement_section fuel e Htag Hsec ids out ids' E)
    as (a & b & middle & c & d & Hout).
  exists out, ids', a, b, middle, c, d. split; [exact E | exact Hout].
Qed.

Lemma X14_witness :
  exists out ids' a b middle c d,
    handleBlockElement 4 sectionDiv (fun _ => "id") = Some (out, ids') /\
    out = [spacing a; spacing b] ++ middle ++ [spacing c; spacing d].
Proof.
  apply (X14_section_div_is_wrapped_in_spacing 4 sectionDiv (fun _ => "id")).
  - reflexivity.
  - reflexivity.
  - vm_compute. lia.
Defined.

(* ================================================================== *)
(** ** Every structural node takes a draw of its own *)

Lemma occ_nil x : occ x [] = 0.
Proof. reflexivity. Qed.

Lemma occ_app x l1 l2 : occ x (l1 ++ l2) = occ x l1 + occ x l2.
Proof. apply count_occ_app. Qed.

Lemma occ_cons x y l : occ x (y :: l) = occ x [y] + occ x l.
Proof. unfold occ. cbn [count_occ]. destruct (string_dec y x); reflexivity. Qed.

Ltac occ_norm :=
  repeat first
    [ rewrite occ_app
    | rewrite occ_nil
    | match goal with
      | |- context [occ ?x (?y :: ?l)] =>
          lazymatch l with
          | nil => fail
          | _ => rewrite (occ_cons x y l)
          end
      end ].

Lemma map_add_seq k start len : map (Nat.add k) (seq start len) = seq (k + start) len.
Proof.
  revert start. induction len as [|len IH]; intros start; [reflexivity|].
  cbn [seq map]. rewrite IH. f_equal. f_equal. lia.
Qed.

Lemma drawn_split s s1 k1 k2 :
  (forall n, s1 n = s (k1 + n)) ->
  drawn s (k1 + k2) = drawn s k1 ++ drawn s1 k2.
Proof.
  intros H. unfold drawn. rewrite seq_app, map_app. f_equal.
  rewrite (map_ext s1 (fun n => s (k1 + n)) H).
  rewrite <- (map_map (Nat.add k1) s), map_add_seq, Nat.add_0_r. reflexivity.
Qed.

Lemma draws_ret {A : Type} (f : A -> list string) base a :
  (forall x, occ x (f a) <= occ x base) -> draws f base (ret a).
Proof.
  intros H s a' s' E. inversion E; subst. exists 0.
  split; [reflexivity|]. intros x. specialize (H x). cbn. lia.
Qed.

Lemma draws_outOfFuel {A : Type} (f : A -> list string) base : draws f base outOfFuel.
Proof. intros s a s' E. discriminate E. Qed.

Lemma draws_bind {A B : Type} (fa : A -> list string) (fb : B -> list string)
      frame b1 base (m : M A) (k : A -> M B) :
  draws fa b1 m ->
  (forall x, occ x (frame ++ b1) <= occ x base) ->
  (forall a, draws fb (frame ++ fa a) (k a)) ->
  draws fb base (bind m k).
Proof.
  intros Hm Hbase Hk s b s' E.
  destruct (bind_inv m k s b s' E) as (a & s1 & E1 & E2).
  destruct (Hm s a s1 E1) as (k1 & Hs1 & Ha).
  destruct (Hk a s1 b s' E2) as (k2 & Hs2 & Hb).
  exists (k1 + k2). split.
  - intros n. rewrite Hs2, Hs1. f_equal. lia.
  - intros x. specialize (Ha x). specialize (Hb x). specialize (Hbase x).
    rewrite (drawn_split s s1 k1 k2 Hs1). rewrite !occ_app in *. lia.
Qed.

(** The usual case: what comes first starts from nothing. *)
Lemma draws_then {A B : Type} (fa : A -> list string) (fb : B -> list string)
      base (m : M A) (k : A -> M B) :
  draws fa [] m ->
  (forall a, draws fb (base ++ fa a) (k a)) ->
  draws fb base (bind m k).
Proof.
  intros Hm Hk. apply (draws_bind fa fb base [] base m k Hm); [|exact Hk].
  intros x. rewrite app_nil_r. lia.
Qed.

Lemma draws_bind_ret {A B : Type} (f : B -> list string) base (a : A) (k : A -> M B) :
  draws f base (k a) -> draws f base (bind (ret a) k).
Proof. intros H. exact H. Qed.

Lemma draws_bind_assoc {A B C : Type} (f : C -> list string) base
      (m : M A) (k : A -> M B) (h : B -> M C) :
  draws f base (bind m (fun a => bind (k a) h)) -> draws f base (bind (bind m k) h).
Proof.
  intros H s c s' E. apply (H s c s'). revert E. unfold bind.
  destruct (m s) as [[a s1]|]; auto.
Qed.

Lemma draws_forEach {A S : Type} (f : S -> list string) (l : list A)
      (body : S -> A -> M S) :
  (forall st x, draws f (f st) (body st x)) ->
  forall st, draws f (f st) (forEach l st body).
Proof.
  intros Hbody. induction l as [|x l IH]; intros st; cbn [forEach].
  - apply draws_ret. intros y. lia.
  - apply (draws_bind f f [] (f st) (f st) _ _ (Hbody st x)).
    + intros y. cbn [app]. lia.
    + intros st1. cbn [app]. apply IH.
Qed.

Lemma draws_generateId : draws (fun id => [id]) [] generateId.
Proof.
  intros s a s' E. inversion E; subst. exists 1.
  split; [reflexivity|]. intros x. cbn. lia.
Qed.

Lemma draws_createSpacingParagraph : draws idsOf [] createSpacingParagraph.
Proof.
  unfold createSpacingParagraph.
  apply (draws_then (fun id => [id])); [apply draws_generateId|].
  intros id. apply draws_ret. intros x. cbn [app idsOf plainText flat_map]. lia.
Qed.

Lemma draws_imageNode element : draws idsOf [] (imageNode element).
Proof.
  unfold imageNode.
  apply (draws_then (fun id => [id])); [apply draws_generateId|].
  intros id. apply draws_ret. intros x. cbn [app idsOf]. lia.
Qed.

Ltac draws_solve :=
  intros ?; cbn [fst snd]; unfold idsOfAll, headingNode;
  repeat rewrite flat_map_app;
  cbn [flat_map idsOf app plainText decoratedText];
  occ_norm; lia.

Ltac draws_step IHp IHb IHc IHt :=
  match goal with
  | |- draws _ _ (ret _) => apply draws_ret; draws_solve
  | |- draws _ _ outOfFuel => apply draws_outOfFuel
  | |- draws _ _ (bind generateId _) =>
      apply (draws_then (fun id => [id])); [apply draws_generateId | intros ?]
  | |- draws _ _ (bind createSpacingParagraph _) =>
      apply (draws_then idsOf); [apply draws_createSpacingParagraph | intros ?]
  | |- draws _ _ (bind (imageNode _) _) =>
      apply (draws_then idsOf); [apply draws_imageNode | intros ?]
  | |- draws _ _ (bind (processTextAndInlineElements _ _) _) =>
      apply (draws_then idsOfAll); [apply IHp | intros ?]
  | |- draws _ _ (bind (handleBlockElement _ _) _) =>
      apply (draws_then idsOfAll); [apply IHb | intros ?]
  | |- draws _ _ (bind (convertNodeToRicos _ _) _) =>
      apply (draws_then idsOfAll); [apply IHc | intros ?]
  | |- draws _ _ (bind (handleTable _ _) _) =>
      apply (draws_then idsOf); [apply IHt | intros ?]
  | |- draws _ _ (bind (bind _ _) _) => apply draws_bind_assoc
  | |- draws _ _ (bind (ret _) _) => apply draws_bind_ret
  | |- draws _ _ (bind (if ?b then _ else _) _) => destruct b
  | |- draws _ _ (if ?b then _ else _) => destruct b
  | |- draws _ _ (match ?x with _ => _ end) => destruct x
  end.

Lemma converters_draw fuel :
  (forall e, draws idsOfAll [] (processTextAndInlineElements fuel e)) /\
  (forall e, draws idsOfAll [] (handleBlockElement fuel e)) /\
  (forall e, draws idsOfAll [] (convertNodeToRicos fuel e)) /\
  (forall e, draws idsOf [] (handleTable fuel e)).
Proof.
  induction fuel as [|fuel (IHp & IHb & IHc & IHt)].
  - repeat split; intros e; apply draws_outOfFuel.
  - repeat split; intros e.
    + cbn [processTextAndInlineElements].
      apply (draws_forEach idsOfAll).
      intros st child. destruct child; repeat draws_step IHp IHb IHc IHt.
    + cbn [handleBlockElement].
      repeat draws_step IHp IHb IHc IHt.
      all: match goal with
           | |- draws _ ?base (bind (forEach _ ?st0 _) _) =>
               apply (draws_bind idsOfAll idsOfAll [] (idsOfAll st0) base);
               [ apply (draws_forEach idsOfAll);
                 intros st child; destruct child; repeat draws_step IHp IHb IHc IHt
               | draws_solve
               | intros ?; repeat draws_step IHp IHb IHc IHt ]
           end.
    + cbn [convertNodeToRicos].
      apply (draws_then (fun st : list RNode * bool => idsOfAll (fst st))).
      * apply (draws_forEach (fun st : list RNode * bool => idsOfAll (fst st))).
        intros [nodes flag] child. cbn [fst snd].
        destruct child; repeat draws_step IHp IHb IHc IHt.
      * intros [nodes flag]. cbn [fst app].
        apply (draws_forEach idsOfAll).
        intros st child. destruct child; repeat draws_step IHp IHb IHc IHt.
    + cbn [handleTable].
      destruct (querySelectorAll e ["tr"]) as [|r rows] eqn:Erows.
      * apply draws_createSpacingParagraph.
      * rewrite <- Erows.
        apply (draws_then (fun st : list RNode * list Z * nat => idsOfAll (fst (fst st)))).
        -- apply (draws_forEach
                    (fun st : list RNode * list Z * nat => idsOfAll (fst (fst st)))).
           intros [[tableRows heights] maxCols] row. cbn [fst snd].
           destruct (querySelectorAll (snd row) ["th"; "td"]) as [|c cells] eqn:Ecells.
           ++ apply draws_ret. intros x. cbn [fst]. lia.
           ++ rewrite <- Ecells.
              apply (draws_then idsOfAll).
              ** apply (draws_forEach idsOfAll).
                 intros rowCells cell. repeat draws_step IHp IHb IHc IHt.
                 all: destruct a0; apply draws_ret; draws_solve.
              ** intros rowCells. repeat draws_step IHp IHb IHc IHt.
        -- intros [[tableRows heights] maxCols]. cbn [fst snd app].
           repeat draws_step IHp IHb IHc IHt.
Qed.

Lemma draws_weaken {A : Type} (f : A -> list string) b b' (m : M A) :
  draws f b m -> (forall x, occ x b <= occ x b') -> draws f b' m.
Proof.
  intros H Hb s a s' E. destruct (H s a s' E) as (k & Hs & Ha).
  exists k. split; [exact Hs|]. intros x. specialize (Ha x). specialize (Hb x). lia.
Qed.

Lemma enhance_draws nodes :
  forall i previousType enhancedNodes,
    draws idsOfAll (idsOfAll enhancedNodes ++ idsOfAll nodes)
          (enhance i nodes previousType enhancedNodes).
Proof.
  induction nodes as [|node rest IH]; intros i previousType enhancedNodes;
    cbn [enhance].
  - apply draws_ret. draws_solve.
  - repeat first [ draws_step I I I I | progress cbv zeta ].
    all: eapply draws_weaken; [apply IH | draws_solve].
Qed.

Lemma cleanedNodes_ids l x : occ x (idsOfAll (cleanedNodes l)) <= occ x (idsOfAll l).
Proof.
  unfold cleanedNodes. cbv zeta.
  set (n := Z.to_nat _). set (s := startIndex l).
  rewrite <- (firstn_skipn s l) at 2.
  rewrite <- (firstn_skipn n (skipn s l)) at 2.
  unfold idsOfAll. rewrite !flat_map_app, !occ_app. lia.
Qed.

Lemma htmlToRicos_draws input :
  draws (fun doc => idsOfAll (docNodes doc)) [] (htmlToRicos input).
Proof.
  unfold htmlToRicos.
  apply (draws_then idsOfAll); [apply converters_draw|].
  intros nodes. cbn [app].
  apply (draws_bind idsOfAll _ [] (idsOfAll nodes) (idsOfAll nodes)).
  - eapply draws_weaken; [apply enhance_draws|]. draws_solve.
  - draws_solve.
  - intros enhanced. apply draws_ret. intros x. cbn [docNodes app].
    apply cleanedNodes_ids.
Qed.

Lemma unaryId_injective i j : unaryId i = unaryId j -> i = j.
Proof.
  revert j. induction i as [|i IH]; intros [|j] H; cbn [unaryId] in H.
  - reflexivity.
  - destruct j; discriminate H.
  - destruct i; discriminate H.
  - f_equal. apply IH. inversion H. reflexivity.
Qed.

Lemma drawn_NoDup (s : IdSource) k :
  (forall i j, s i = s j -> i = j) -> NoDup (drawn s k).
Proof.
  intros Hinj. unfold drawn. generalize (seq_NoDup k 0).
  induction 1 as [|n l Hn Hl IH]; cbn [map]; constructor; [|exact IH].
  intros Hin. apply in_map_iff in Hin as (m & Hm & Hin).
  apply Hinj in Hm. subst m. contradiction.
Qed.

(** X15.  When the identifier source never gives the same identifier
    twice, no two nodes of the document, at any depth, share an
    identifier (Text nodes apart, which have none). *)
Theorem X15_identifiers_are_distinct input (ids : IdSource) :
  (forall i j, ids i = ids j -> i = j) ->
  exists doc,
    run (htmlToRicos input) ids = Some doc /\
    NoDup (idsOfAll (docNodes doc)).
Proof.
  intros Hinj.
  destruct (htmlToRicos_total input ids) as (doc & ids' & E).
  exists doc. split; [unfold run; rewrite E; reflexivity|].
  destruct (htmlToRicos_draws input ids doc ids' E) as (k & _ & Hocc).
  apply (NoDup_count_occ string_dec). intros x. specialize (Hocc x).
  pose proof (proj1 (NoDup_count_occ string_dec (drawn ids k))
                    (drawn_NoDup ids k Hinj) x) as Hone.
  unfold occ in Hocc. cbn [count_occ] in Hocc. lia.
Qed.

Lemma X15_witness :
  exists doc,
    run (htmlToRicos (body [Element "H1" [] [TextNode "a"];
                             Element "P" [] [TextNode "b"]])) unaryId = Some doc /\
    NoDup (idsOfAll (docNodes doc)).
Proof.
  apply (X15_identifiers_are_distinct _ unaryId). exact unaryId_injective.
Defined.
